(** * Inversion in F_2[x]/(x^R - 1): the addition chain of gf2x_inv.c

    A shallow embedding of [src/gf2x/gf2x_inv.c] (with the level table of
    [include/internal/bike_defs.h]) and the properties of the inversion
    chain that follow from it. *)

From Stdlib Require Import NArith ZArith List Bool Lia Znumtheory.
Import ListNotations.

Set Implicit Arguments.

Local Open Scope N_scope.

(** ** Security levels and their ring sizes (bike_defs.h) *)

(** The values of the [LEVEL] macro for which bike_defs.h defines [R_BITS];
    every other value stops at [#error]. *)
Inductive level : Set :=
| LEVEL_0 | LEVEL_10 | LEVEL_11 | LEVEL_12 | LEVEL_13 | LEVEL_14
| LEVEL_15 | LEVEL_16 | LEVEL_17 | LEVEL_18 | LEVEL_3 | LEVEL_1.

Definition all_levels : list level :=
  [LEVEL_0; LEVEL_10; LEVEL_11; LEVEL_12; LEVEL_13; LEVEL_14;
   LEVEL_15; LEVEL_16; LEVEL_17; LEVEL_18; LEVEL_3; LEVEL_1].

(** [R_BITS], as selected by the [#if(LEVEL == ...)] ladder of bike_defs.h. *)
Definition R_BITS (lvl : level) : N :=
  match lvl with
  | LEVEL_0 => 2053
  | LEVEL_10 => 7109
  | LEVEL_11 => 773
  | LEVEL_12 => 1019
  | LEVEL_13 => 1283
  | LEVEL_14 => 2029
  | LEVEL_15 => 2053
  | LEVEL_16 => 2069
  | LEVEL_17 => 4021
  | LEVEL_18 => 4099
  | LEVEL_3 => 24659
  | LEVEL_1 => 12323
  end.

(** ** The hard-coded chain parameters (gf2x_inv.c, lines 73-247) *)

(** One [#if]/[#elif] block of gf2x_inv.c: the value its static assertion
    compares [R_BITS] with, [MAX_I] and the four initialiser lists.  The
    arrays hold [size_t]; every entry is below 2^15, so no unsigned
    wrap-around is involved and [N] is used as is. *)
Record inv_params : Set := mk_inv_params {
  R_EXPECTED : N;
  MAX_I : N;
  EXP0_K_VALS : list N;
  EXP0_L_VALS : list N;
  EXP1_K_VALS : list N;
  EXP1_L_VALS : list N
}.

(** The ladder of gf2x_inv.c tests LEVEL against 0, 10, 11, ..., 18 and 1;
    its final [#else] (reached by LEVEL 3) carries the R=24659 tables. *)
Definition params (lvl : level) : inv_params :=
  match lvl with
  | LEVEL_0 => mk_inv_params 2053 12
      [1; 2; 4; 8; 16; 32; 64; 128; 256; 512; 1024; 2048]
      [1027; 1540; 385; 409; 988; 969; 740; 1502; 1810; 1565; 2049; 16]
      [0; 1; 0; 0; 0; 0; 0; 0; 0; 0; 0; 3]
      [0; 1027; 0; 0; 0; 0; 0; 0; 0; 0; 0; 770]
  | LEVEL_10 => mk_inv_params 7109 13
      [1; 2; 4; 8; 16; 32; 64; 128; 256; 512; 1024; 2048; 4096]
      [3555; 5332; 1333; 6748; 2359; 5643; 2238; 3908; 2332; 6948; 4594;
       5324; 1393]
      [0; 1; 0; 0; 0; 0; 3; 67; 195; 451; 0; 963; 3011]
      [0; 3555; 0; 0; 0; 0; 2666; 2057; 5586; 2864; 0; 981; 4838]
  | LEVEL_11 => mk_inv_params 773 10
      [1; 2; 4; 8; 16; 32; 64; 128; 256; 512]
      [387; 580; 145; 154; 526; 715; 272; 549; 704; 123]
      [0; 1; 0; 0; 0; 0; 0; 0; 3; 259]
      [0; 387; 0; 0; 0; 0; 0; 0; 290; 88]
  | LEVEL_12 => mk_inv_params 1019 10
      [1; 2; 4; 8; 16; 32; 64; 128; 256; 512]
      [510; 255; 828; 816; 449; 858; 446; 211; 704; 382]
      [0; 0; 0; 1; 9; 25; 57; 121; 249; 505]
      [0; 0; 0; 510; 408; 791; 24; 514; 440; 1003]
  | LEVEL_13 => mk_inv_params 1283 11
      [1; 2; 4; 8; 16; 32; 64; 128; 256; 512; 1024]
      [642; 321; 401; 426; 573; 1164; 48; 1021; 645; 333; 551]
      [0; 0; 0; 0; 0; 0; 0; 0; 1; 0; 257]
      [0; 0; 0; 0; 0; 0; 0; 0; 642; 0; 964]
  | LEVEL_14 => mk_inv_params 2029 11
      [1; 2; 4; 8; 16; 32; 64; 128; 256; 512; 1024]
      [1015; 1522; 1395; 214; 1158; 1824; 1445; 184; 1392; 1998; 961]
      [0; 1; 0; 3; 0; 11; 43; 107; 235; 491; 1003]
      [0; 1015; 0; 761; 0; 534; 96; 748; 1689; 1506; 2010]
  | LEVEL_15 => mk_inv_params 2053 12
      [1; 2; 4; 8; 16; 32; 64; 128; 256; 512; 1024; 2048]
      [1027; 1540; 385; 409; 988; 969; 740; 1502; 1810; 1565; 2049; 16]
      [0; 1; 0; 0; 0; 0; 0; 0; 0; 0; 0; 3]
      [0; 1027; 0; 0; 0; 0; 0; 0; 0; 0; 0; 770]
  | LEVEL_16 => mk_inv_params 2069 12
      [1; 2; 4; 8; 16; 32; 64; 128; 256; 512; 1024; 2048]
      [1035; 1552; 388; 1576; 976; 836; 1643; 1473; 1417; 959; 1045; 1662]
      [0; 1; 0; 0; 3; 0; 0; 0; 0; 0; 0; 19]
      [0; 1035; 0; 0; 776; 0; 0; 0; 0; 0; 0; 122]
  | LEVEL_17 => mk_inv_params 4021 12
      [1; 2; 4; 8; 16; 32; 64; 128; 256; 512; 1024; 2048]
      [2011; 3016; 754; 1555; 1404; 926; 1003; 759; 1078; 15; 225; 2373]
      [0; 1; 0; 0; 3; 19; 0; 51; 179; 435; 947; 1971]
      [0; 2011; 0; 0; 1508; 2186; 0; 1673; 3192; 3021; 1084; 2640]
  | LEVEL_18 => mk_inv_params 4099 13
      [1; 2; 4; 8; 16; 32; 64; 128; 256; 512; 1024; 2048; 4096]
      [2050; 1025; 1281; 1361; 3672; 1973; 2778; 2966; 702; 924; 1184;
       4097; 4]
      [0; 0; 0; 0; 0; 0; 0; 0; 0; 0; 0; 0; 1]
      [0; 0; 0; 0; 0; 0; 0; 0; 0; 0; 0; 0; 2050]
  | LEVEL_1 => mk_inv_params 12323 14
      [1; 2; 4; 8; 16; 32; 64; 128; 256; 512; 1024; 2048; 4096; 8192]
      [6162; 3081; 3851; 5632; 22; 484; 119; 1838; 1742; 3106; 10650; 1608;
       10157; 8816]
      [0; 0; 0; 0; 0; 1; 0; 0; 0; 0; 0; 0; 33; 4129]
      [0; 0; 0; 0; 0; 6162; 0; 0; 0; 0; 0; 0; 242; 5717]
  | LEVEL_3 => mk_inv_params 24659 15
      [1; 2; 4; 8; 16; 32; 64; 128; 256; 512; 1024; 2048; 4096; 8192; 16384]
      [12330; 6165; 7706; 3564; 2711; 1139; 15053; 1258; 4388; 20524; 9538;
       6393; 10486; 1715; 6804]
      [0; 0; 0; 0; 1; 0; 17; 0; 0; 0; 0; 0; 0; 81; 8273]
      [0; 0; 0; 0; 12330; 0; 13685; 0; 0; 0; 0; 0; 0; 23678; 19056]
  end.

(** [tbl[i]] for a [const size_t tbl[MAX_I]] array.  The source only ever
    indexes below [MAX_I]; outside the initialiser list the model reads 0. *)
Definition idx (tbl : list N) (i : N) : N := nth (N.to_nat i) tbl 0.

(** [#define K_SQR_THR (64)] *)
Definition K_SQR_THR : N := 64.

(** The two static assertions: bike_defs.h line 233 and the one that opens
    every parameter block of gf2x_inv.c.  A configuration builds only when
    both hold. *)
Definition r_too_large_for_inversion (r_bits : N) : bool :=
  negb (r_bits <? 32768).

Definition gf2x_inv_r_doesnt_match_parameters (p : inv_params) (r_bits : N)
  : bool :=
  negb (r_bits =? R_EXPECTED p).

(** ** The Sage recipe of the comment at lines 65-71 *)

Definition sage_max_i (r : N) : N := N.log2 (r - 2) + 1.

Definition sage_exp0_k (r : N) : list N :=
  map (fun i => 2 ^ N.of_nat i) (seq 0 (N.to_nat (sage_max_i r))).

Definition sage_exp1_k (r : N) : list N :=
  map (fun i => if N.testbit (r - 2) (N.of_nat i)
                then (r - 2) mod 2 ^ N.of_nat i else 0)
      (seq 0 (N.to_nat (sage_max_i r))).

(** [b^e mod m] by square and multiply, so that the exponents of the tables
    never produce a number above [m^2]. *)
Fixpoint pow_mod_pos (b : N) (e : positive) (m : N) : N :=
  match e with
  | xH => b mod m
  | xO e' => let h := pow_mod_pos b e' m in (h * h) mod m
  | xI e' => let h := pow_mod_pos b e' m in (b * ((h * h) mod m)) mod m
  end.

Definition pow_mod (b e m : N) : N :=
  match e with
  | 0 => 1 mod m
  | N.pos p => pow_mod_pos b p m
  end.

(** [l] is the inverse of [2^k] modulo [r]. *)
Definition is_inv_pow2 (r k l : N) : bool := (pow_mod 2 k r * l) mod r =? 1.

(** ** The objects of one [gf2x_mod_inv] call *)

(** The ring elements [f], [g], [t] that the function declares, by address. *)
Inductive pad_ptr : Set := ptr_f | ptr_g | ptr_t.

(** The one double-width object, [sec_buf]. *)
Inductive dbl_ptr : Set := ptr_sec_buf.

(** A call made through the context, with the pointers it is given:
    [ctx->sqr(dst, src)], [ctx->red(dst, src)], [ctx.k_sqr(dst, src, l)] and
    [gf2x_mod_mul_with_ctx(dst, a, b, &ctx)]. *)
Inductive ctx_call : Set :=
| call_sqr (dst : dbl_ptr) (src : pad_ptr)
| call_red (dst : pad_ptr) (src : dbl_ptr)
| call_k_sqr (dst src : pad_ptr) (l_param : N)
| call_mul (dst a b : pad_ptr).

Section Machine.

(** [pad_r_t] and [dbl_pad_r_t] are declared in types.h; the function only
    moves their values around, so they stay abstract.  [{0}] is the
    all-zero initialiser of each.  An assignment [x.val = y.val] is taken
    to copy the ring element. *)
Variables pad_r_t dbl_pad_r_t : Type.
Variable pad_zero : pad_r_t.
Variable dbl_zero : dbl_pad_r_t.

(** The automatic variables of [gf2x_mod_inv]. *)
Record frame : Type := mk_frame {
  var_f : pad_r_t;
  var_g : pad_r_t;
  var_t : pad_r_t;
  var_sec_buf : dbl_pad_r_t
}.

Definition load (p : pad_ptr) (m : frame) : pad_r_t :=
  match p with
  | ptr_f => var_f m
  | ptr_g => var_g m
  | ptr_t => var_t m
  end.

Definition store (p : pad_ptr) (v : pad_r_t) (m : frame) : frame :=
  match p with
  | ptr_f => mk_frame v (var_g m) (var_t m) (var_sec_buf m)
  | ptr_g => mk_frame (var_f m) v (var_t m) (var_sec_buf m)
  | ptr_t => mk_frame (var_f m) (var_g m) v (var_sec_buf m)
  end.

Definition load_dbl (p : dbl_ptr) (m : frame) : dbl_pad_r_t :=
  match p with ptr_sec_buf => var_sec_buf m end.

Definition store_dbl (p : dbl_ptr) (v : dbl_pad_r_t) (m : frame) : frame :=
  match p with
  | ptr_sec_buf => mk_frame (var_f m) (var_g m) (var_t m) v
  end.

(** [gf2x_ctx]: the methods [gf2x_ctx_init] installs, as far as gf2x_inv.c
    uses them, each acting on the objects its pointers name.  [mul] stands
    for [gf2x_mod_mul_with_ctx] of gf2x_mul.c, which is handed the context. *)
Record gf2x_ctx : Type := mk_ctx {
  sqr : dbl_ptr -> pad_ptr -> frame -> frame;
  red : pad_ptr -> dbl_ptr -> frame -> frame;
  k_sqr : pad_ptr -> pad_ptr -> N -> frame -> frame;
  mul : pad_ptr -> pad_ptr -> pad_ptr -> frame -> frame
}.

(** The state a call runs in: the frame, the caller's [*c], and the calls
    made through the context so far, oldest first. *)
Record machine : Type := mk_machine {
  locals : frame;
  out_c : pad_r_t;
  calls : list ctx_call
}.

Definition stmt : Type := machine -> machine.

Definition skip : stmt := fun s => s.

Definition then_ (s1 s2 : stmt) : stmt := fun s => s2 (s1 s).

Local Notation "s1 ;; s2" := (then_ s1 s2)
  (at level 61, left associativity).

(** [for(size_t i = first; i < bound; i++) body] *)
Fixpoint for_count {St : Type} (n : nat) (i : N) (body : N -> St -> St)
  (s : St) : St :=
  match n with
  | O => s
  | S n' => for_count n' (N.succ i) body (body i s)
  end.

Definition for_loop {St : Type} (first bound : N) (body : N -> St -> St)
  : St -> St :=
  for_count (N.to_nat (bound - first)) first body.

Definition on_frame (call : ctx_call) (fn : frame -> frame) : stmt :=
  fun s => mk_machine (fn (locals s)) (out_c s) (calls s ++ [call]).

Definition call_ctx_sqr (ctx : gf2x_ctx) dst src : stmt :=
  on_frame (call_sqr dst src) (sqr ctx dst src).

Definition call_ctx_red (ctx : gf2x_ctx) dst src : stmt :=
  on_frame (call_red dst src) (red ctx dst src).

Definition call_ctx_k_sqr (ctx : gf2x_ctx) dst src l : stmt :=
  on_frame (call_k_sqr dst src l) (k_sqr ctx dst src l).

Definition gf2x_mod_mul_with_ctx c a b (ctx : gf2x_ctx) : stmt :=
  on_frame (call_mul c a b) (mul ctx c a b).

(** [dst->val = src->val] between two locals, and [x.val = a->val] from the
    argument. *)
Definition assign (dst src : pad_ptr) : stmt :=
  fun s => mk_machine (store dst (load src (locals s)) (locals s))
                      (out_c s) (calls s).

Definition assign_val (dst : pad_ptr) (v : pad_r_t) : stmt :=
  fun s => mk_machine (store dst v (locals s)) (out_c s) (calls s).

(** [c->val = src.val] *)
Definition assign_out (src : pad_ptr) : stmt :=
  fun s => mk_machine (locals s) (load src (locals s)) (calls s).

(** a = a^2 mod (x^r - 1) *)
Definition gf2x_mod_sqr_in_place (a : pad_ptr) (secure_buffer : dbl_ptr)
  (ctx : gf2x_ctx) : stmt :=
  call_ctx_sqr ctx secure_buffer a ;;
  call_ctx_red ctx a secure_buffer.

(** c = a^2^2^num_sqrs *)
Definition repeated_squaring (c a : pad_ptr) (num_sqrs : N)
  (sec_buf : dbl_ptr) (ctx : gf2x_ctx) : stmt :=
  assign c a ;;
  for_loop 0 num_sqrs (fun _ => gf2x_mod_sqr_in_place c sec_buf ctx).

(** One exponentiation [dst = src^(2^k)] of the loop body.  The source
    writes this if/else out twice, at lines 277-281 (exponentiation 0) and
    288-292 (exponentiation 1). *)
Definition exponentiation (dst src : pad_ptr) (k l : N) (ctx : gf2x_ctx)
  : stmt :=
  if k <=? K_SQR_THR
  then repeated_squaring dst src k ptr_sec_buf ctx
  else call_ctx_k_sqr ctx dst src l.

(** Modelled from the spec: cleanup.h ([DEFER_CLEANUP], [pad_r_cleanup],
    [dbl_pad_r_cleanup]) is not among the sources.  Section 5 of the
    specification has every scratch object zeroized when the call is left;
    the declarations are in the order f, g, t, sec_buf, so the handlers run
    in the reverse order. *)
Definition pad_r_cleanup (p : pad_ptr) : stmt :=
  fun s => mk_machine (store p pad_zero (locals s)) (out_c s) (calls s).

(** Modelled from the spec: [dbl_pad_r_cleanup] of cleanup.h is missing;
    it zeroizes the double-width buffer in the same way. *)
Definition dbl_pad_r_cleanup (p : dbl_ptr) : stmt :=
  fun s => mk_machine (store_dbl p dbl_zero (locals s)) (out_c s) (calls s).

(** [DEFER_CLEANUP(pad_r_t x = {0}, ...)] for the four locals: on entry the
    frame is all zero, whatever the stack held. *)
Definition enter_frame : stmt :=
  fun s => mk_machine (mk_frame pad_zero pad_zero pad_zero dbl_zero)
                      (out_c s) (calls s).

Definition leave_frame : stmt :=
  dbl_pad_r_cleanup ptr_sec_buf ;;
  pad_r_cleanup ptr_t ;;
  pad_r_cleanup ptr_g ;;
  pad_r_cleanup ptr_f.

(** The body of the [for] loop of [gf2x_mod_inv], lines 276-296. *)
Definition inv_loop_body (p : inv_params) (ctx : gf2x_ctx) (i : N) : stmt :=
  exponentiation ptr_g ptr_f (idx (EXP0_K_VALS p) (i - 1))
                 (idx (EXP0_L_VALS p) (i - 1)) ctx ;;
  gf2x_mod_mul_with_ctx ptr_f ptr_g ptr_f ctx ;;
  if negb (idx (EXP1_K_VALS p) i =? 0)
  then
    exponentiation ptr_g ptr_f (idx (EXP1_K_VALS p) i)
                   (idx (EXP1_L_VALS p) i) ctx ;;
    gf2x_mod_mul_with_ctx ptr_t ptr_g ptr_t ctx
  else skip.

(** Lines 266-301 of [gf2x_mod_inv], up to the last statement; the deferred
    handlers are not part of it. *)
Definition gf2x_mod_inv_body (p : inv_params) (ctx : gf2x_ctx) (a : pad_r_t)
  : stmt :=
  enter_frame ;;
  assign_val ptr_f a ;;
  assign_val ptr_t a ;;
  for_loop 1 (MAX_I p) (inv_loop_body p ctx) ;;
  gf2x_mod_sqr_in_place ptr_t ptr_sec_buf ctx ;;
  assign_out ptr_t.

(** [void gf2x_mod_inv(OUT pad_r_t *c, IN const pad_r_t *a)], with [ctx] the
    context that [gf2x_ctx_init] fills in. *)
Definition gf2x_mod_inv (p : inv_params) (ctx : gf2x_ctx) (a : pad_r_t)
  : stmt :=
  gf2x_mod_inv_body p ctx a ;;
  leave_frame.

End Machine.

(** ** The arithmetic context as the specification describes it *)

Section Arithmetic.

Variables pad_r_t dbl_pad_r_t : Type.

(** The four operations of section 6 as functions of the operand values:
    [square], [reduce], [k_square] and [multiply]. *)
Record gf2x_ops : Type := mk_ops {
  op_sqr : pad_r_t -> dbl_pad_r_t;
  op_red : dbl_pad_r_t -> pad_r_t;
  op_k_sqr : pad_r_t -> N -> pad_r_t;
  op_mul : pad_r_t -> pad_r_t -> pad_r_t
}.

(** The context whose methods read every operand and then write the
    destination, whichever pointers coincide. *)
Definition ctx_of_ops (V : gf2x_ops) : gf2x_ctx pad_r_t dbl_pad_r_t :=
  mk_ctx
    (fun dst src m => store_dbl dst (op_sqr V (load src m)) m)
    (fun dst src m => store dst (op_red V (load_dbl src m)) m)
    (fun dst src l m => store dst (op_k_sqr V (load src m) l) m)
    (fun dst a b m => store dst (op_mul V (load a m) (load b m)) m).

(** [ctx] computes the operations [V] and tolerates a destination that is
    also a source. *)
Record implements (ctx : gf2x_ctx pad_r_t dbl_pad_r_t) (V : gf2x_ops)
  : Prop := mk_implements {
  impl_sqr : forall dst src m,
    sqr ctx dst src m = sqr (ctx_of_ops V) dst src m;
  impl_red : forall dst src m,
    red ctx dst src m = red (ctx_of_ops V) dst src m;
  impl_k_sqr : forall dst src l m,
    k_sqr ctx dst src l m = k_sqr (ctx_of_ops V) dst src l m;
  impl_mul : forall dst a b m,
    mul ctx dst a b m = mul (ctx_of_ops V) dst a b m
}.

(** The same, promised only for calls whose destination is none of the
    sources. *)
Record implements_unaliased (ctx : gf2x_ctx pad_r_t dbl_pad_r_t)
  (V : gf2x_ops) : Prop := mk_implements_unaliased {
  unal_sqr : forall dst src m,
    sqr ctx dst src m = sqr (ctx_of_ops V) dst src m;
  unal_red : forall dst src m,
    red ctx dst src m = red (ctx_of_ops V) dst src m;
  unal_k_sqr : forall dst src l m, dst <> src ->
    k_sqr ctx dst src l m = k_sqr (ctx_of_ops V) dst src l m;
  unal_mul : forall dst a b m, dst <> a -> dst <> b ->
    mul ctx dst a b m = mul (ctx_of_ops V) dst a b m
}.

(** A context that computes [V] but whose multiply zeroes the destination
    before it reads the operands, as a routine that accumulates into its
    output does. *)
Definition ctx_clear_first (V : gf2x_ops) (zero : pad_r_t)
  : gf2x_ctx pad_r_t dbl_pad_r_t :=
  mk_ctx
    (sqr (ctx_of_ops V))
    (red (ctx_of_ops V))
    (k_sqr (ctx_of_ops V))
    (fun dst a b m =>
       let m0 := store dst zero m in
       store dst (op_mul V (load a m0) (load b m0)) m0).

(** What a statement does to the ring elements of the frame: [dst] receives
    [v], the others and [*c] are left alone. *)
Definition writes (s : stmt pad_r_t dbl_pad_r_t)
  (st : machine pad_r_t dbl_pad_r_t) (dst : pad_ptr) (v : pad_r_t) : Prop :=
  load dst (locals (s st)) = v /\
  (forall q, q <> dst -> load q (locals (s st)) = load q (locals st)) /\
  out_c (s st) = out_c st.

(** [x^n] for the multiplication [m] with unit [e]. *)
Definition gpow (m : pad_r_t -> pad_r_t -> pad_r_t) (e x : pad_r_t) (n : N)
  : pad_r_t :=
  N.peano_rect (fun _ => pad_r_t) e (fun _ acc => m x acc) n.

(** The operations keep to the ring elements [wf] (clean padding) and
    [multiply] does not depend on the order of its operands. *)
Record closed_commutative (V : gf2x_ops) (wf : pad_r_t -> Prop)
  : Prop := mk_closed_commutative {
  mul_wf : forall x y, wf x -> wf y -> wf (op_mul V x y);
  sqr_red_wf : forall x, wf x -> wf (op_red V (op_sqr V x));
  k_sqr_wf : forall x l, wf x -> wf (op_k_sqr V x l);
  mul_comm : forall x y, wf x -> wf y -> op_mul V x y = op_mul V y x
}.

(** [multiply] is the multiplication of a commutative ring with unit
    [one], the constant polynomial 1. *)
Record ring_monoid (V : gf2x_ops) (one : pad_r_t) (wf : pad_r_t -> Prop)
  : Prop := mk_ring_monoid {
  monoid_closed : closed_commutative V wf;
  one_wf : wf one;
  mul_assoc : forall x y z, wf x -> wf y -> wf z ->
    op_mul V x (op_mul V y z) = op_mul V (op_mul V x y) z;
  mul_one_l : forall x, wf x -> op_mul V one x = x
}.

(** The contracts of section 6 for ring size [R]: on top of the ring
    multiplication, a [square] followed by [reduce] is the ring square, and
    [k_square] with [l = (2^k)^-1 mod R] is the power [2^k]. *)
Record arith_contract (R : N) (V : gf2x_ops) (one : pad_r_t)
  (wf : pad_r_t -> Prop) : Prop := mk_arith_contract {
  contract_monoid : ring_monoid V one wf;
  sqr_red_mul : forall x, wf x -> op_red V (op_sqr V x) = op_mul V x x;
  k_sqr_pow : forall x k l, wf x -> l < R -> (2 ^ k * l) mod R = 1 ->
    op_k_sqr V x l = gpow (op_mul V) one x (2 ^ k)
}.

(** [a] has an inverse among the ring elements. *)
Definition invertible (V : gf2x_ops) (one : pad_r_t) (wf : pad_r_t -> Prop)
  (a : pad_r_t) : Prop :=
  exists b, wf b /\ op_mul V a b = one.

(** *** The pseudocode of section 4.2, word for word *)

(** "perform k sequential modular squarings (square into a double-width
    buffer, then reduce)", otherwise "one k-squaring ... parameterized by
    l". *)
Definition k_square_or_repeat (V : gf2x_ops) (x : pad_r_t) (k l : N)
  : pad_r_t :=
  if k <=? 64
  then N.iter k (fun y => op_red V (op_sqr V y)) x
  else op_k_sqr V x l.

(** One pass "for i in 1 .. MAX_I-1" over the accumulators [(f, t)]. *)
Definition invert_step (V : gf2x_ops) (p : inv_params) (i : N)
  (ft : pad_r_t * pad_r_t) : pad_r_t * pad_r_t :=
  let '(f, t) := ft in
  let g := k_square_or_repeat V f (idx (EXP0_K_VALS p) (i - 1))
                              (idx (EXP0_L_VALS p) (i - 1)) in
  let f := op_mul V f g in
  if idx (EXP1_K_VALS p) i =? 0 then (f, t)
  else
    let g := k_square_or_repeat V f (idx (EXP1_K_VALS p) i)
                                (idx (EXP1_L_VALS p) i) in
    (f, op_mul V t g).

(** [invert(a, table, ctx)]: both accumulators start at [a]; the result is
    "c = t^2", one final modular squaring. *)
Definition invert (V : gf2x_ops) (p : inv_params) (a : pad_r_t) : pad_r_t :=
  let ft := fold_left (fun ft i => invert_step V p (N.of_nat i) ft)
                      (seq 1 (N.to_nat (MAX_I p) - 1)) (a, a) in
  op_red V (op_sqr V (snd ft)).

End Arithmetic.

(** ** The exponent the chain accumulates *)

(** The loop body on exponents: with [f = a^ef] and [t = a^et], the step
    multiplies [f] by [f^(2^k0)] and, when taken, [t] by [f^(2^k1)]. *)
Definition exponent_step (p : inv_params) (i : N) (e : N * N) : N * N :=
  let '(ef, et) := e in
  let ef := ef * 2 ^ idx (EXP0_K_VALS p) (i - 1) + ef in
  if idx (EXP1_K_VALS p) i =? 0 then (ef, et)
  else (ef, et + ef * 2 ^ idx (EXP1_K_VALS p) i).

Definition chain_exponents (p : inv_params) : N * N :=
  for_loop 1 (MAX_I p) (exponent_step p) (1, 1).

Definition chain_exponent (p : inv_params) : N :=
  2 * snd (chain_exponents p).

(** The same bookkeeping on the number of one bits: [f = a^(2^mf - 1)] and
    [t = a^(2^mt - 1)].  A pass keeps that shape exactly when its first
    exponent is [mf] and its second, when present, is [mt]. *)
Definition length_step (p : inv_params) (i : N) (m : option (N * N))
  : option (N * N) :=
  match m with
  | None => None
  | Some (mf, mt) =>
      if idx (EXP0_K_VALS p) (i - 1) =? mf
      then
        if idx (EXP1_K_VALS p) i =? 0 then Some (mf + mf, mt)
        else if idx (EXP1_K_VALS p) i =? mt
             then Some (mf + mf, mt + (mf + mf))
             else None
      else None
  end.

Definition chain_lengths (p : inv_params) : option (N * N) :=
  for_loop 1 (MAX_I p) (length_step p) (Some (1, 1)).

(** Every exponentiation of pass [i] that goes through [k_sqr] is handed the
    inverse of its [2^k] modulo [r]. *)
Definition step_tables_ok (r : N) (p : inv_params) (i : N) : bool :=
  let k0 := idx (EXP0_K_VALS p) (i - 1) in
  let l0 := idx (EXP0_L_VALS p) (i - 1) in
  let k1 := idx (EXP1_K_VALS p) i in
  let l1 := idx (EXP1_L_VALS p) i in
  ((k0 <=? K_SQR_THR) || ((l0 <? r) && is_inv_pow2 r k0 l0)) &&
  ((k1 =? 0) || (k1 <=? K_SQR_THR) || ((l1 <? r) && is_inv_pow2 r k1 l1)).

(** [2^(MAX_I - 1)], the number of one bits in the exponent of [f] at the
    end of the loop. *)
Definition MAX_I_pow (lvl : level) : N := 2 ^ (MAX_I (params lvl) - 1).

Definition chain_tables_ok (r : N) (p : inv_params) : bool :=
  forallb (fun i => step_tables_ok r p (N.of_nat i))
          (seq 1 (N.to_nat (MAX_I p) - 1)).

(** ** A reference arithmetic: bit vectors in [N] *)

(** Modelled from the spec: the ring arithmetic behind the context
    (gf2x_mul.c, gf2x_ksqr.c and the squaring and reduction routines) is not
    among the sources.  A ring element is the number whose bit [i] is the
    coefficient of [x^i]; "bits at positions >= R are always zero". *)
Definition ref_wf (R : N) (x : N) : Prop := x < 2 ^ R.

(** Modelled from the spec: the multiplication routine is missing; this is
    the product in F_2[x] before reduction, by shift and xor. *)
Fixpoint clmul_pos (p : positive) (b : N) : N :=
  match p with
  | xH => b
  | xO p' => N.double (clmul_pos p' b)
  | xI p' => N.lxor b (N.double (clmul_pos p' b))
  end.

Definition clmul (a b : N) : N :=
  match a with
  | 0 => 0
  | N.pos p => clmul_pos p b
  end.

(** Modelled from the spec: the squaring routine is missing; "Computes the
    unreduced square of src into dst." *)
Definition ref_sqr (x : N) : N := clmul x x.

(** Modelled from the spec: the reduction routine is missing; "Reduces a
    double-width value modulo x^R-1", that is, the upper half is folded onto
    the lower one and the result masked to R bits. *)
Definition ref_red (R : N) (y : N) : N :=
  N.land (N.lxor (N.land y (N.ones R)) (N.shiftr y R)) (N.ones R).

(** Modelled from the spec: gf2x_mul.c is missing; "Ring multiplication
    modulo x^R-1." *)
Definition ref_mul (R : N) (a b : N) : N := ref_red R (clmul a b).

(** The number whose bits below [n] are given by [F]. *)
Fixpoint of_bits (n : nat) (F : N -> bool) : N :=
  match n with
  | O => 0
  | S n' => if F (N.of_nat n')
            then N.setbit (of_bits n' F) (N.of_nat n')
            else of_bits n' F
  end.

(** Modelled from the spec: gf2x_ksqr.c is missing; "a single permutation
    of the bit positions of x parameterized by l", where bit [j] of the
    result is bit [l*j mod R] of the source. *)
Definition ref_k_sqr (R : N) (x : N) (l : N) : N :=
  of_bits (N.to_nat R) (fun j => N.testbit x ((l * j) mod R)).

Definition ref_ops (R : N) : gf2x_ops N N :=
  mk_ops ref_sqr (ref_red R) (ref_k_sqr R) (ref_mul R).

(** Two polynomials of F_2[x] that differ by a multiple of [x^R - 1],
    that is by [q * x^R + q] for some [q]. *)
Definition fold_equiv (R a b : N) : Prop :=
  exists q, N.lxor a b = N.lxor (N.shiftl q R) q.

(** The inverse of 2 modulo an odd [R]. *)
Definition half_mod (R : N) : N := (R + 1) / 2.

(** The polynomial with the given exponents. *)
Definition poly_of (exps : list N) : N :=
  fold_right (fun e acc => N.lxor (2 ^ e) acc) 0 exps.

(** A sparse element of weight 9 for R = 773, the inverse the chain finds
    for it, and a state with arbitrary contents to start a call in. *)
Definition sample_a : N := poly_of [0; 5; 77; 123; 300; 411; 555; 600; 771].

Definition sample_a_inv : N :=
  22876199150024243375906257275141040526373515477284378414064417861375592284265977172126229731004969074250656415456037701926173385415931678373554867129539424894454068789866887760174867025429833484245737364500659211962718176567250910528.

Definition sample_state : machine N N :=
  mk_machine (mk_frame 7 8 9 10) 11 [].

(** ** Which ring sizes build *)

(** The two static assertions let a configuration through. *)
Definition static_assertions_hold (lvl : level) (r_bits : N) : bool :=
  negb (r_too_large_for_inversion r_bits) &&
  negb (gf2x_inv_r_doesnt_match_parameters (params lvl) r_bits).

(** Some level's tables are for ring size [r]. *)
Definition supported (r : N) : bool :=
  existsb (fun lvl => static_assertions_hold lvl r) all_levels.

Definition supported_sizes : list N :=
  [773; 1019; 1283; 2029; 2053; 2069; 4021; 4099; 7109; 12323; 24659].

(** Trial division by 2, ..., floor(sqrt n). *)
Definition is_prime (n : Z) : bool :=
  (1 <? n)%Z &&
  forallb (fun d => negb (n mod Z.of_nat d =? 0)%Z)
          (seq 2 (Z.to_nat (Z.sqrt n) - 1)).

(** ** The tables against the recipe, entry by entry *)

Definition entry_inverse_ok (lvl : level) (i : N) : bool :=
  let p := params lvl in
  is_inv_pow2 (R_BITS lvl) (idx (EXP0_K_VALS p) i) (idx (EXP0_L_VALS p) i) &&
  ((idx (EXP1_K_VALS p) i =? 0) ||
   is_inv_pow2 (R_BITS lvl) (idx (EXP1_K_VALS p) i) (idx (EXP1_L_VALS p) i)).

Definition entry_derived_ok (lvl : level) (i : N) : bool :=
  let p := params lvl in
  let r := R_BITS lvl in
  (idx (EXP0_K_VALS p) i =? 2 ^ i) &&
  (idx (EXP1_K_VALS p) i =?
     if N.testbit (r - 2) i then (r - 2) mod 2 ^ i else 0).

Definition all_entries (ok : level -> N -> bool) (lvl : level) : bool :=
  forallb (fun j => ok lvl (N.of_nat j))
          (seq 0 (N.to_nat (MAX_I (params lvl)))).

(** ** The calls a run issues, as a function of the tables alone *)

Definition sqr_in_place_calls (a : pad_ptr) (b : dbl_ptr) : list ctx_call :=
  [call_sqr b a; call_red a b].

Definition exponentiation_calls (dst src : pad_ptr) (k l : N)
  : list ctx_call :=
  if k <=? K_SQR_THR
  then concat (repeat (sqr_in_place_calls dst ptr_sec_buf) (N.to_nat k))
  else [call_k_sqr dst src l].

Definition inv_loop_body_calls (p : inv_params) (i : N) : list ctx_call :=
  exponentiation_calls ptr_g ptr_f (idx (EXP0_K_VALS p) (i - 1))
                       (idx (EXP0_L_VALS p) (i - 1)) ++
  [call_mul ptr_f ptr_g ptr_f] ++
  (if negb (idx (EXP1_K_VALS p) i =? 0)
   then exponentiation_calls ptr_g ptr_f (idx (EXP1_K_VALS p) i)
                             (idx (EXP1_L_VALS p) i) ++
        [call_mul ptr_t ptr_g ptr_t]
   else []).

Definition gf2x_mod_inv_calls (p : inv_params) : list ctx_call :=
  flat_map (fun i => inv_loop_body_calls p (N.of_nat i))
           (seq 1 (N.to_nat (MAX_I p) - 1)) ++
  sqr_in_place_calls ptr_t ptr_sec_buf.

(** [s] appends exactly the calls [tr], whatever state it starts in. *)
Definition issues {pad_r_t dbl_pad_r_t : Type}
  (s : stmt pad_r_t dbl_pad_r_t) (tr : list ctx_call) : Prop :=
  forall st, calls (s st) = calls st ++ tr.

(** ** Counting calls *)

Definition is_call_mul (c : ctx_call) : bool :=
  match c with
  | call_mul _ _ _ => true
  | _ => false
  end.

Definition count_calls (f : ctx_call -> bool) (tr : list ctx_call) : N :=
  N.of_nat (length (filter f tr)).

(** The number of one bits, [wt] in the paper the source cites. *)
Fixpoint weight_pos (p : positive) : N :=
  match p with
  | xH => 1
  | xO p' => weight_pos p'
  | xI p' => N.succ (weight_pos p')
  end.

Definition weight (n : N) : N :=
  match n with
  | 0 => 0
  | N.pos p => weight_pos p
  end.

(** ** The other parameters and the derived sizes of bike_defs.h *)

Module BikeDefs.

(** [#define N0 2] *)
Definition N0 : N := 2.

Definition D (lvl : level) : N :=
  match lvl with
  | LEVEL_0 => 23
  | LEVEL_10 => 41
  | LEVEL_11 => 9
  | LEVEL_12 => 13
  | LEVEL_13 => 15
  | LEVEL_14 => 21
  | LEVEL_15 => 23
  | LEVEL_16 => 23
  | LEVEL_17 => 35
  | LEVEL_18 => 35
  | LEVEL_3 => 103
  | LEVEL_1 => 71
  end.

Definition T (lvl : level) : N :=
  match lvl with
  | LEVEL_0 => 42
  | LEVEL_10 => 42
  | LEVEL_11 => 34
  | LEVEL_12 => 39
  | LEVEL_13 => 43
  | LEVEL_14 => 54
  | LEVEL_15 => 55
  | LEVEL_16 => 55
  | LEVEL_17 => 76
  | LEVEL_18 => 77
  | LEVEL_3 => 199
  | LEVEL_1 => 134
  end.

Definition THRESHOLD_MIN (lvl : level) : N :=
  match lvl with
  | LEVEL_0 => 12
  | LEVEL_10 => 21
  | LEVEL_11 => 5
  | LEVEL_12 => 7
  | LEVEL_13 => 8
  | LEVEL_14 => 11
  | LEVEL_15 => 12
  | LEVEL_16 => 12
  | LEVEL_17 => 18
  | LEVEL_18 => 18
  | LEVEL_3 => 52
  | LEVEL_1 => 36
  end.

Definition BLOCK_BITS (lvl : level) : N :=
  match lvl with
  | LEVEL_0 => 4096
  | LEVEL_10 => 8192
  | LEVEL_11 => 1024
  | LEVEL_12 => 1024
  | LEVEL_13 => 2048
  | LEVEL_14 => 2048
  | LEVEL_15 => 4096
  | LEVEL_16 => 4096
  | LEVEL_17 => 4096
  | LEVEL_18 => 8192
  | LEVEL_3 => 32768
  | LEVEL_1 => 16384
  end.

Definition MAX_RAND_INDICES_T (lvl : level) : N :=
  match lvl with
  | LEVEL_3 => 373
  | _ => 271
  end.

(** [#define N_BITS (R_BITS * N0)] *)
Definition N_BITS (lvl : level) : N := R_BITS lvl * N0.

Section Sizes.

(** [DIVIDE_AND_CEIL], [MASK] and [BYTES_IN_QWORD] come from defs.h, which
    is not among the sources; they are parameters here. *)
Variable DIVIDE_AND_CEIL : N -> N -> N.
Variable MASK : N -> N.
Variable BYTES_IN_QWORD : N.

Definition R_BYTES (lvl : level) : N := DIVIDE_AND_CEIL (R_BITS lvl) 8.

Definition R_QWORDS (lvl : level) : N :=
  DIVIDE_AND_CEIL (R_BITS lvl) (8 * BYTES_IN_QWORD).

Definition R_BLOCKS (lvl : level) : N :=
  DIVIDE_AND_CEIL (R_BITS lvl) (BLOCK_BITS lvl).

Definition R_PADDED (lvl : level) : N := R_BLOCKS lvl * BLOCK_BITS lvl.

Definition R_PADDED_BYTES (lvl : level) : N := R_PADDED lvl / 8.

Definition R_PADDED_QWORDS (lvl : level) : N := R_PADDED lvl / 64.

Definition LAST_R_QWORD_LEAD (lvl : level) : N :=
  N.land (R_BITS lvl) (MASK 6).

Definition LAST_R_QWORD_TRAIL (lvl : level) : N := 64 - LAST_R_QWORD_LEAD lvl.

Definition LAST_R_QWORD_MASK (lvl : level) : N :=
  MASK (LAST_R_QWORD_LEAD lvl).

Definition LAST_R_BYTE_LEAD (lvl : level) : N :=
  N.land (R_BITS lvl) (MASK 3).

Definition LAST_R_BYTE_TRAIL (lvl : level) : N := 8 - LAST_R_BYTE_LEAD lvl.

Definition LAST_R_BYTE_MASK (lvl : level) : N := MASK (LAST_R_BYTE_LEAD lvl).

(** What the names of the three say: the quotient rounded up, the [n] low
    bits set, and eight bytes to a quadword. *)
Definition defs_h_meaning : Prop :=
  (forall x y, 0 < y -> x <= DIVIDE_AND_CEIL x y * y < x + y) /\
  (forall n, MASK n = N.ones n) /\
  BYTES_IN_QWORD = 8.

End Sizes.

End BikeDefs.

(** One way to fill the three parameters in: the quotient of [x + y - 1],
    and [2^n - 1]. *)
Definition ceil_div (x y : N) : N := (x + y - 1) / y.

Definition low_bits (n : N) : N := 2 ^ n - 1.

(** * Properties *)

Unset Implicit Arguments.

(** ** Modular powers *)

Lemma pow_mod_pos_spec b e m : pow_mod_pos b e m = b ^ N.pos e mod m.
Proof.
  induction e as [e IH|e IH|]; cbn [pow_mod_pos]; cbv zeta.
  - rewrite IH, <- N.Div0.mul_mod, N.Div0.mul_mod_idemp_r.
    rewrite <- N.pow_add_r, <- N.pow_succ_r'. f_equal. f_equal. lia.
  - rewrite IH, <- N.Div0.mul_mod, <- N.pow_add_r. f_equal. f_equal. lia.
  - now rewrite N.pow_1_r.
Qed.

Lemma pow_mod_spec b e m : pow_mod b e m = b ^ e mod m.
Proof. destruct e; [reflexivity | apply pow_mod_pos_spec]. Qed.

Lemma is_inv_pow2_spec r k l :
  is_inv_pow2 r k l = true <-> (2 ^ k mod r * l) mod r = 1.
Proof. unfold is_inv_pow2. now rewrite pow_mod_spec, N.eqb_eq. Qed.

(** ** Loops *)

Lemma for_count_fold (St : Type) (body : N -> St -> St) :
  forall n i s,
    for_count n i body s =
    fold_left (fun s' j => body (N.of_nat j) s') (seq (N.to_nat i) n) s.
Proof.
  induction n as [|n IH]; intros i s; simpl; [reflexivity|].
  rewrite N2Nat.id, IH, N2Nat.inj_succ. reflexivity.
Qed.

Lemma for_count_const (St : Type) (F : St -> St) :
  forall n i s, for_count n i (fun _ => F) s = Nat.iter n F s.
Proof.
  induction n as [|n IH]; intros i s; simpl; [reflexivity|].
  rewrite IH. clear IH. revert s.
  induction n as [|n IH]; intro s; simpl; [reflexivity|].
  now rewrite IH.
Qed.

(** ** The call sequence *)

Section Calls.

Variables pad_r_t dbl_pad_r_t : Type.
Variable pad_zero : pad_r_t.
Variable dbl_zero : dbl_pad_r_t.

Let stmt := stmt pad_r_t dbl_pad_r_t.
Let gf2x_ctx := gf2x_ctx pad_r_t dbl_pad_r_t.

Lemma issues_nil (s : stmt) :
  (forall st, calls (s st) = calls st) -> issues s [].
Proof. intros H st. now rewrite H, app_nil_r. Qed.

Lemma issues_then (s1 s2 : stmt) tr1 tr2 :
  issues s1 tr1 -> issues s2 tr2 -> issues (then_ s1 s2) (tr1 ++ tr2).
Proof.
  intros H1 H2 st. unfold then_. now rewrite H2, H1, app_assoc.
Qed.

Lemma issues_on_frame call fn : issues (@on_frame pad_r_t dbl_pad_r_t call fn) [call].
Proof. intro st. reflexivity. Qed.

Lemma issues_for_count (body : N -> stmt) (tr : N -> list ctx_call) :
  (forall i, issues (body i) (tr i)) ->
  forall n i,
    issues (for_count n i body)
           (flat_map (fun j => tr (N.of_nat j)) (seq (N.to_nat i) n)).
Proof.
  intros Hb. induction n as [|n IH]; intros i st; simpl.
  - now rewrite app_nil_r.
  - rewrite IH, Hb, N2Nat.id, N2Nat.inj_succ, app_assoc. reflexivity.
Qed.

Lemma issues_sqr_in_place (ctx : gf2x_ctx) a b :
  issues (gf2x_mod_sqr_in_place a b ctx) (sqr_in_place_calls a b).
Proof. intro st. unfold gf2x_mod_sqr_in_place, then_. simpl. now rewrite <- app_assoc. Qed.

Lemma issues_repeated_squaring (ctx : gf2x_ctx) c a k b :
  issues (repeated_squaring c a k b ctx)
         (concat (repeat (sqr_in_place_calls c b) (N.to_nat k))).
Proof.
  unfold repeated_squaring, for_loop.
  change (concat (repeat (sqr_in_place_calls c b) (N.to_nat k)))
    with ([] ++ concat (repeat (sqr_in_place_calls c b) (N.to_nat k))).
  apply issues_then; [apply issues_nil; reflexivity|].
  rewrite N.sub_0_r.
  intro st.
  rewrite (issues_for_count (fun _ => gf2x_mod_sqr_in_place c b ctx)
             (fun _ => sqr_in_place_calls c b)
             (fun _ => issues_sqr_in_place ctx c b)).
  f_equal. generalize (N.to_nat 0). induction (N.to_nat k) as [|n IH]; intro m; simpl;
    [reflexivity | now rewrite IH].
Qed.

Lemma issues_exponentiation (ctx : gf2x_ctx) dst src k l :
  issues (exponentiation dst src k l ctx) (exponentiation_calls dst src k l).
Proof.
  unfold exponentiation, exponentiation_calls.
  destruct (k <=? K_SQR_THR).
  - apply issues_repeated_squaring.
  - apply issues_on_frame.
Qed.

Lemma issues_inv_loop_body (ctx : gf2x_ctx) p i :
  issues (inv_loop_body p ctx i) (inv_loop_body_calls p i).
Proof.
  unfold inv_loop_body, inv_loop_body_calls.
  rewrite app_assoc.
  apply issues_then; [apply issues_then|].
  - apply issues_exponentiation.
  - apply issues_on_frame.
  - destruct (negb (idx (EXP1_K_VALS p) i =? 0)).
    + apply issues_then; [apply issues_exponentiation | apply issues_on_frame].
    + apply issues_nil. reflexivity.
Qed.

Lemma issues_gf2x_mod_inv (ctx : gf2x_ctx) p a :
  issues (gf2x_mod_inv pad_zero dbl_zero p ctx a) (gf2x_mod_inv_calls p).
Proof.
  unfold gf2x_mod_inv, gf2x_mod_inv_body, gf2x_mod_inv_calls.
  rewrite <- (app_nil_r (_ ++ sqr_in_place_calls _ _)).
  apply issues_then; [|apply issues_nil; reflexivity].
  rewrite <- (app_nil_r (_ ++ sqr_in_place_calls _ _)).
  apply issues_then; [|apply issues_nil; reflexivity].
  apply issues_then; [|apply issues_sqr_in_place].
  rewrite <- (app_nil_l (flat_map _ _)).
  apply issues_then; [do 2 (try (rewrite <- (app_nil_l []); apply issues_then)); apply issues_nil; reflexivity|].
  unfold for_loop.
  replace (N.to_nat (MAX_I p - 1)) with (N.to_nat (MAX_I p) - 1)%nat by lia.
  apply (issues_for_count (inv_loop_body p ctx) (inv_loop_body_calls p)
           (issues_inv_loop_body ctx p) _ 1).
Qed.

End Calls.

(** ** The code against the pseudocode *)

Section Simulation.

Variables pad_r_t dbl_pad_r_t : Type.
Variable pad_zero : pad_r_t.
Variable dbl_zero : dbl_pad_r_t.
Variable ctx : gf2x_ctx pad_r_t dbl_pad_r_t.
Variable V : gf2x_ops pad_r_t dbl_pad_r_t.
Variable wf : pad_r_t -> Prop.

Hypothesis Himpl : implements ctx V.
Hypothesis Hcc : closed_commutative V wf.

Let machine := machine pad_r_t dbl_pad_r_t.
Let frame := frame pad_r_t dbl_pad_r_t.

Lemma load_store_same p v (m : frame) : load p (store p v m) = v.
Proof. now destruct p. Qed.

Lemma load_store_other p q v (m : frame) :
  q <> p -> load q (store p v m) = load q m.
Proof. destruct p, q; intro H; try reflexivity; now elim H. Qed.

Lemma load_store_dbl b q v (m : frame) : load q (store_dbl b v m) = load q m.
Proof. now destruct b, q. Qed.

Lemma load_dbl_store_dbl b v (m : frame) : load_dbl b (store_dbl b v m) = v.
Proof. now destruct b. Qed.

Lemma sqr_in_place_writes a b (st : machine) :
  writes (gf2x_mod_sqr_in_place a b ctx) st a
         (op_red V (op_sqr V (load a (locals st)))).
Proof.
  unfold writes, gf2x_mod_sqr_in_place, then_, call_ctx_sqr, call_ctx_red,
    on_frame; simpl.
  rewrite (impl_red Himpl), (impl_sqr Himpl); simpl.
  rewrite load_dbl_store_dbl.
  repeat split.
  - apply load_store_same.
  - intros q Hq. now rewrite load_store_other, load_store_dbl.
Qed.

Lemma mul_writes c a b (st : machine) :
  writes (gf2x_mod_mul_with_ctx c a b ctx) st c
         (op_mul V (load a (locals st)) (load b (locals st))).
Proof.
  unfold writes, gf2x_mod_mul_with_ctx, on_frame; simpl.
  rewrite (impl_mul Himpl); simpl.
  repeat split.
  - apply load_store_same.
  - intros q Hq. now apply load_store_other.
Qed.

Lemma k_sqr_writes dst src l (st : machine) :
  writes (call_ctx_k_sqr ctx dst src l) st dst
         (op_k_sqr V (load src (locals st)) l).
Proof.
  unfold writes, call_ctx_k_sqr, on_frame; simpl.
  rewrite (impl_k_sqr Himpl); simpl.
  repeat split.
  - apply load_store_same.
  - intros q Hq. now apply load_store_other.
Qed.

Lemma iter_sqr_in_place_writes c b n (st : machine) :
  writes (Nat.iter n (gf2x_mod_sqr_in_place c b ctx)) st c
         (Nat.iter n (fun y => op_red V (op_sqr V y)) (load c (locals st))).
Proof.
  unfold writes.
  induction n as [|n IH]; [repeat split | rewrite !Nat.iter_succ].
  destruct IH as (IHv & IHo & IHc).
    destruct (sqr_in_place_writes c b
                (Nat.iter n (gf2x_mod_sqr_in_place c b ctx) st))
      as (Hv & Ho & Hc).
    repeat split.
    + now rewrite Hv, IHv.
    + intros q Hq. now rewrite Ho, IHo.
    + now rewrite Hc.
Qed.

Lemma repeated_squaring_writes c a k b (st : machine) :
  writes (repeated_squaring c a k b ctx) st c
         (N.iter k (fun y => op_red V (op_sqr V y)) (load a (locals st))).
Proof.
  unfold writes, repeated_squaring, then_, for_loop.
  rewrite !for_count_const, N2Nat.inj_iter, N.sub_0_r.
  destruct (iter_sqr_in_place_writes c b (N.to_nat k) (assign c a st))
    as (Hv & Ho & Hc).
  repeat split.
  - rewrite Hv. unfold assign; simpl. now rewrite load_store_same.
  - intros q Hq. rewrite Ho by exact Hq. unfold assign; simpl.
    now apply load_store_other.
  - now rewrite Hc.
Qed.

Lemma exponentiation_writes dst src k l (st : machine) :
  writes (exponentiation dst src k l ctx) st dst
         (k_square_or_repeat V (load src (locals st)) k l).
Proof.
  unfold exponentiation, k_square_or_repeat, K_SQR_THR.
  destruct (k <=? 64).
  - apply repeated_squaring_writes.
  - apply k_sqr_writes.
Qed.

Lemma iter_sqr_wf n x :
  wf x -> wf (Nat.iter n (fun y => op_red V (op_sqr V y)) x).
Proof.
  intro Hx. induction n as [|n IH]; [exact Hx | rewrite Nat.iter_succ].
  now apply (sqr_red_wf Hcc).
Qed.

Lemma k_square_or_repeat_wf x k l :
  wf x -> wf (k_square_or_repeat V x k l).
Proof.
  intro Hx. unfold k_square_or_repeat. destruct (k <=? 64).
  - rewrite N2Nat.inj_iter. now apply iter_sqr_wf.
  - now apply (k_sqr_wf Hcc).
Qed.

Lemma invert_step_wf p i f t :
  wf f -> wf t ->
  wf (fst (invert_step V p i (f, t))) /\ wf (snd (invert_step V p i (f, t))).
Proof.
  intros Hf Ht. unfold invert_step.
  assert (Hf' : wf (op_mul V f (k_square_or_repeat V f
                     (idx (EXP0_K_VALS p) (i - 1))
                     (idx (EXP0_L_VALS p) (i - 1))))).
  { apply (mul_wf Hcc); [exact Hf | now apply k_square_or_repeat_wf]. }
  destruct (idx (EXP1_K_VALS p) i =? 0); simpl; split; try assumption.
  apply (mul_wf Hcc); [exact Ht | now apply k_square_or_repeat_wf].
Qed.

(** One pass of the loop moves [f] and [t] as the pseudocode does. *)
Lemma inv_loop_body_step p i (st : machine) :
  wf (var_f (locals st)) -> wf (var_t (locals st)) ->
  let st' := inv_loop_body p ctx i st in
  (var_f (locals st'), var_t (locals st')) =
    invert_step V p i (var_f (locals st), var_t (locals st)) /\
  out_c st' = out_c st.
Proof.
  intros Hf Ht. unfold inv_loop_body, then_, invert_step.
  set (k0 := idx (EXP0_K_VALS p) (i - 1)).
  set (l0 := idx (EXP0_L_VALS p) (i - 1)).
  set (k1 := idx (EXP1_K_VALS p) i).
  set (l1 := idx (EXP1_L_VALS p) i).
  destruct (exponentiation_writes ptr_g ptr_f k0 l0 st) as (Hg1 & Ho1 & Hc1).
  set (st1 := exponentiation ptr_g ptr_f k0 l0 ctx st) in *.
  pose proof (Ho1 ptr_f ltac:(discriminate)) as Hf1.
  pose proof (Ho1 ptr_t ltac:(discriminate)) as Ht1.
  destruct (mul_writes ptr_f ptr_g ptr_f st1) as (Hf2 & Ho2 & Hc2).
  set (st2 := gf2x_mod_mul_with_ctx ptr_f ptr_g ptr_f ctx st1) in *.
  pose proof (Ho2 ptr_t ltac:(discriminate)) as Ht2.
  unfold load in Hg1, Hf1, Ht1, Hf2, Ht2.
  rewrite Hg1, Hf1 in Hf2. rewrite Ht1 in Ht2.
  assert (Hwg : wf (k_square_or_repeat V (var_f (locals st)) k0 l0))
    by now apply k_square_or_repeat_wf.
  rewrite (mul_comm Hcc) in Hf2 by assumption.
  assert (Hwf2 : wf (var_f (locals st2))).
  { rewrite Hf2. now apply (mul_wf Hcc). }
  destruct (k1 =? 0); cbn [negb].
  - unfold skip. split; [now rewrite Hf2, Ht2 | now rewrite Hc2, Hc1].
  - destruct (exponentiation_writes ptr_g ptr_f k1 l1 st2)
      as (Hg3 & Ho3 & Hc3).
    set (st3 := exponentiation ptr_g ptr_f k1 l1 ctx st2) in *.
    pose proof (Ho3 ptr_f ltac:(discriminate)) as Hf3.
    pose proof (Ho3 ptr_t ltac:(discriminate)) as Ht3.
    destruct (mul_writes ptr_t ptr_g ptr_t st3) as (Ht4 & Ho4 & Hc4).
    set (st4 := gf2x_mod_mul_with_ctx ptr_t ptr_g ptr_t ctx st3) in *.
    pose proof (Ho4 ptr_f ltac:(discriminate)) as Hf4.
    unfold load in Hg3, Hf3, Ht3, Ht4, Hf4.
    rewrite Hg3, Ht3 in Ht4.
    rewrite (mul_comm Hcc) in Ht4;
      [| now apply k_square_or_repeat_wf | now rewrite Ht2].
    split.
    + rewrite Ht4, Hf4, Hf3. now rewrite Hf2, Ht2.
    + now rewrite Hc4, Hc3, Hc2, Hc1.
Qed.

Lemma inv_loop_steps p (js : list nat) :
  forall (st : machine),
    wf (var_f (locals st)) -> wf (var_t (locals st)) ->
    let st' := fold_left (fun s j => inv_loop_body p ctx (N.of_nat j) s)
                         js st in
    (var_f (locals st'), var_t (locals st')) =
      fold_left (fun ft j => invert_step V p (N.of_nat j) ft) js
                (var_f (locals st), var_t (locals st)).
Proof.
  induction js as [|j js IH]; intros st Hf Ht; cbn [fold_left];
    [reflexivity|].
  destruct (inv_loop_body_step p (N.of_nat j) st Hf Ht) as (Hstep & _).
  destruct (invert_step_wf p (N.of_nat j) _ _ Hf Ht) as (Hf' & Ht').
  rewrite <- Hstep in Hf', Ht'. cbn [fst snd] in Hf', Ht'.
  rewrite <- Hstep. now apply IH.
Qed.

(** The value left in [*c] is the one the pseudocode of section 4.2
    computes. *)
Lemma gf2x_mod_inv_refines p a (st : machine) :
  wf a ->
  out_c (gf2x_mod_inv pad_zero dbl_zero p ctx a st) = invert V p a.
Proof.
  intro Ha.
  unfold gf2x_mod_inv, gf2x_mod_inv_body, leave_frame, then_, invert.
  unfold pad_r_cleanup, dbl_pad_r_cleanup, assign_out. cbn [out_c].
  match goal with
  | |- context [gf2x_mod_sqr_in_place ptr_t ptr_sec_buf ctx ?s] =>
      destruct (sqr_in_place_writes ptr_t ptr_sec_buf s) as (Hv & _);
      rewrite Hv; clear Hv
  end.
  do 2 f_equal. unfold for_loop. rewrite for_count_fold.
  replace (N.to_nat (MAX_I p - 1)) with (N.to_nat (MAX_I p) - 1)%nat by lia.
  change (N.to_nat 1) with 1%nat.
  match goal with
  | |- load ptr_t (locals (fold_left _ _ ?s)) = _ =>
      pose proof (inv_loop_steps p (seq 1 (N.to_nat (MAX_I p) - 1)) s Ha Ha)
        as Hsteps
  end.
  apply (f_equal snd) in Hsteps. exact Hsteps.
Qed.

End Simulation.

(** ** Powers in the ring, and the power the chain computes *)

Section Powers.

Variables pad_r_t dbl_pad_r_t : Type.
Variable V : gf2x_ops pad_r_t dbl_pad_r_t.
Variable one : pad_r_t.
Variable wf : pad_r_t -> Prop.

Hypothesis HM : ring_monoid V one wf.

Local Infix "**" := (op_mul V) (at level 40, left associativity).
Local Notation "'pow'" := (gpow (op_mul V) one).

Let Hcc : closed_commutative V wf := monoid_closed HM.

Lemma gpow_0 x : pow x 0 = one.
Proof. reflexivity. Qed.

Lemma gpow_succ x n : pow x (N.succ n) = x ** pow x n.
Proof. unfold gpow. now rewrite N.peano_rect_succ. Qed.

Lemma gpow_wf x n : wf x -> wf (pow x n).
Proof.
  intro Hx. induction n as [|n IH] using N.peano_ind.
  - apply (one_wf HM).
  - rewrite gpow_succ. now apply (mul_wf Hcc).
Qed.

Lemma mul_one_r x : wf x -> x ** one = x.
Proof.
  intro Hx. rewrite (mul_comm Hcc); [now apply (mul_one_l HM) | exact Hx |].
  apply (one_wf HM).
Qed.

Lemma gpow_1 x : wf x -> pow x 1 = x.
Proof.
  intro Hx. change 1 with (N.succ 0). rewrite gpow_succ, gpow_0.
  now apply mul_one_r.
Qed.

Lemma gpow_add x n k : wf x -> pow x (n + k) = pow x n ** pow x k.
Proof.
  intro Hx. induction n as [|n IH] using N.peano_ind.
  - rewrite N.add_0_l, gpow_0, (mul_one_l HM); [reflexivity|].
    now apply gpow_wf.
  - rewrite N.add_succ_l, !gpow_succ, IH.
    apply (mul_assoc HM); auto using gpow_wf.
Qed.

Lemma gpow_mul x n k : wf x -> pow (pow x n) k = pow x (n * k).
Proof.
  intro Hx. induction k as [|k IH] using N.peano_ind.
  - now rewrite N.mul_0_r, !gpow_0.
  - rewrite gpow_succ, IH, <- gpow_add by exact Hx.
    f_equal. lia.
Qed.

Lemma gpow_2 x : wf x -> x ** x = pow x 2.
Proof.
  intro Hx. change 2 with (1 + 1). rewrite gpow_add, gpow_1; auto.
Qed.

Lemma inverse_unique a c c' :
  wf a -> wf c -> wf c' -> c ** a = one -> a ** c' = one -> c' = c.
Proof.
  intros Ha Hc Hc' H1 H2.
  rewrite <- (mul_one_l HM c' Hc') at 1.
  rewrite <- H1, <- (mul_assoc HM), H2 by assumption.
  now apply mul_one_r.
Qed.

End Powers.

Section Algebra.

Variables pad_r_t dbl_pad_r_t : Type.
Variable V : gf2x_ops pad_r_t dbl_pad_r_t.
Variable one : pad_r_t.
Variable wf : pad_r_t -> Prop.
Variable R : N.

Hypothesis HC : arith_contract R V one wf.

Local Infix "**" := (op_mul V) (at level 40, left associativity).
Local Notation "'pow'" := (gpow (op_mul V) one).

Let HM : ring_monoid V one wf := contract_monoid HC.
Let Hcc : closed_commutative V wf := monoid_closed HM.

Local Ltac wf_tac :=
  first [assumption | apply (gpow_wf _ _ _ _ _ HM); assumption].

Lemma msqr_pow x : wf x -> op_red V (op_sqr V x) = pow x 2.
Proof. intro Hx. rewrite (sqr_red_mul HC) by exact Hx. now apply (gpow_2 _ _ _ _ _ HM). Qed.

Lemma iter_msqr_pow x k :
  wf x -> N.iter k (fun y => op_red V (op_sqr V y)) x = pow x (2 ^ k).
Proof.
  intro Hx. induction k as [|k IH] using N.peano_ind.
  - cbn [N.iter]. now rewrite N.pow_0_r, (gpow_1 _ _ _ _ _ HM).
  - rewrite N.iter_succ, IH, msqr_pow, (gpow_mul _ _ _ _ _ HM), N.pow_succ_r'
      by wf_tac.
    f_equal. lia.
Qed.

(** Either branch of an exponentiation is the power [2^k], provided the
    [l] handed to [k_sqr] is the inverse of [2^k]. *)
Lemma k_square_or_repeat_pow x k l :
  wf x ->
  (k <=? K_SQR_THR) || ((l <? R) && is_inv_pow2 R k l) = true ->
  k_square_or_repeat V x k l = pow x (2 ^ k).
Proof.
  intros Hx Hok. unfold k_square_or_repeat. unfold K_SQR_THR in Hok.
  destruct (k <=? 64).
  - now apply iter_msqr_pow.
  - cbn [orb] in Hok. apply andb_prop in Hok as [Hl Hinv].
    apply (k_sqr_pow HC); [exact Hx | now apply N.ltb_lt |].
    apply is_inv_pow2_spec in Hinv.
    now rewrite N.Div0.mul_mod_idemp_l in Hinv.
Qed.

Lemma invert_step_pow p i a ef et :
  wf a ->
  step_tables_ok R p i = true ->
  invert_step V p i (pow a ef, pow a et) =
    (pow a (fst (exponent_step p i (ef, et))),
     pow a (snd (exponent_step p i (ef, et)))).
Proof.
  intros Ha Hok. unfold step_tables_ok in Hok.
  apply andb_prop in Hok as [Hok0 Hok1].
  unfold invert_step, exponent_step.
  rewrite k_square_or_repeat_pow by wf_tac.
  rewrite (gpow_mul _ _ _ _ _ HM), <- (gpow_add _ _ _ _ _ HM) by exact Ha.
  replace (ef + ef * 2 ^ idx (EXP0_K_VALS p) (i - 1))
    with (ef * 2 ^ idx (EXP0_K_VALS p) (i - 1) + ef) by lia.
  destruct (idx (EXP1_K_VALS p) i =? 0); cbn [fst snd]; [reflexivity|].
  cbn [orb] in Hok1.
  rewrite k_square_or_repeat_pow by wf_tac.
  now rewrite (gpow_mul _ _ _ _ _ HM), <- (gpow_add _ _ _ _ _ HM) by exact Ha.
Qed.

Lemma invert_steps_pow p a (js : list nat) :
  wf a ->
  forallb (fun i => step_tables_ok R p (N.of_nat i)) js = true ->
  forall e,
    fold_left (fun ft j => invert_step V p (N.of_nat j) ft) js
              (pow a (fst e), pow a (snd e)) =
    (pow a (fst (fold_left (fun e' j => exponent_step p (N.of_nat j) e')
                           js e)),
     pow a (snd (fold_left (fun e' j => exponent_step p (N.of_nat j) e')
                           js e))).
Proof.
  intro Ha. induction js as [|j js IH]; intros Hok e; cbn [fold_left].
  - reflexivity.
  - cbn [forallb] in Hok. apply andb_prop in Hok as [Hj Hjs].
    destruct e as [ef et]. cbn [fst snd].
    rewrite invert_step_pow by assumption.
    now apply IH.
Qed.

(** The pseudocode raises [a] to the exponent the tables add up to. *)
Lemma invert_pow p a :
  wf a -> chain_tables_ok R p = true ->
  invert V p a = pow a (chain_exponent p).
Proof.
  intros Ha Hok. unfold invert, chain_exponent, chain_exponents, for_loop.
  rewrite for_count_fold.
  replace (N.to_nat (MAX_I p - 1)) with (N.to_nat (MAX_I p) - 1)%nat by lia.
  change (N.to_nat 1) with 1%nat.
  replace (a, a) with (pow a 1, pow a 1) by now rewrite (gpow_1 _ _ _ _ _ HM).
  pose proof (invert_steps_pow p a _ Ha Hok (1, 1)) as Hsteps.
  cbn [fst snd] in Hsteps. rewrite Hsteps. cbn [snd].
  rewrite msqr_pow, (gpow_mul _ _ _ _ _ HM) by wf_tac.
  f_equal. lia.
Qed.

(** [2^(R-1)] and [2^0] have the same inverse modulo [R], namely 1, so the
    [k_square] contract makes the power [2^(R-1)] the identity map. *)
Lemma gpow_fermat x :
  1 < R -> 2 ^ (R - 1) mod R = 1 -> wf x -> pow x (2 ^ (R - 1)) = x.
Proof.
  intros HR Hf Hx.
  rewrite <- (k_sqr_pow HC x (R - 1) Hx HR) by now rewrite N.mul_1_r.
  rewrite (k_sqr_pow HC x 0 Hx HR).
  - now apply (gpow_1 _ _ _ _ _ HM).
  - rewrite N.pow_0_r, N.mul_1_l. now apply N.mod_small.
Qed.

Lemma pow2_ge_2 : 1 < R -> 2 <= 2 ^ (R - 1).
Proof.
  intro HR. replace (R - 1) with (N.succ (R - 2)) by lia.
  rewrite N.pow_succ_r'.
  assert (0 < 2 ^ (R - 2)) by (apply N.neq_0_lt_0, N.pow_nonzero; lia).
  lia.
Qed.

(** The power [2^(R-1) - 2] of an invertible element is its inverse. *)
Lemma gpow_inverse a :
  1 < R -> 2 ^ (R - 1) mod R = 1 -> wf a -> invertible V one wf a ->
  pow a (2 ^ (R - 1) - 2) ** a = one.
Proof.
  intros HR Hf Ha (b & Hb & Hab).
  pose proof (pow2_ge_2 HR) as H2.
  set (u := pow a (2 ^ (R - 1) - 2) ** a).
  assert (Hu : wf u) by (apply (mul_wf Hcc); wf_tac).
  assert (Hua : u ** a = a).
  { unfold u. rewrite <- (gpow_1 _ _ _ _ _ HM a Ha) at 2 3.
    rewrite <- !(gpow_add _ _ _ _ _ HM) by exact Ha.
    replace (2 ^ (R - 1) - 2 + 1 + 1) with (2 ^ (R - 1)) by lia.
    now apply gpow_fermat. }
  rewrite <- (mul_one_r _ _ _ _ _ HM u Hu), <- Hab, (mul_assoc HM) by assumption.
  now rewrite Hua.
Qed.

(** What [invert] returns on an invertible element, for tables that add up
    to the exponent [2^(R-1) - 2]. *)
Lemma invert_correct p a :
  1 < R -> 2 ^ (R - 1) mod R = 1 ->
  chain_tables_ok R p = true ->
  chain_exponent p = 2 ^ (R - 1) - 2 ->
  wf a -> invertible V one wf a ->
  wf (invert V p a) /\
  invert V p a ** a = one /\
  (forall c', wf c' -> a ** c' = one -> c' = invert V p a).
Proof.
  intros HR Hf Hok He Ha Hinv.
  rewrite (invert_pow p a Ha Hok), He.
  assert (Hw : wf (pow a (2 ^ (R - 1) - 2))) by wf_tac.
  pose proof (gpow_inverse a HR Hf Ha Hinv) as Hi.
  repeat split; try assumption.
  intros c' Hc' Hac'.
  exact (@inverse_unique _ _ V one wf HM a _ c' Ha Hw Hc' Hi Hac').
Qed.

Lemma invert_involutive p a :
  1 < R -> 2 ^ (R - 1) mod R = 1 ->
  chain_tables_ok R p = true ->
  chain_exponent p = 2 ^ (R - 1) - 2 ->
  wf a -> invertible V one wf a ->
  invert V p (invert V p a) = a.
Proof.
  intros HR Hf Hok He Ha Hinv.
  destruct (invert_correct p a HR Hf Hok He Ha Hinv) as (Hw & Hi & _).
  assert (Hinv' : invertible V one wf (invert V p a)) by (now exists a).
  destruct (invert_correct p _ HR Hf Hok He Hw Hinv') as (_ & _ & Hu).
  symmetry. now apply Hu.
Qed.

End Algebra.

(** ** The reference arithmetic is a ring arithmetic *)

Local Ltac xor_ac :=
  apply N.bits_inj; intros ?n; rewrite ?N.lxor_spec;
  repeat match goal with
         | |- context [N.testbit ?a ?m] => destruct (N.testbit a m)
         end;
  reflexivity.

Lemma double_shiftl x : N.double x = N.shiftl x 1.
Proof. rewrite N.double_spec, N.shiftl_mul_pow2, N.pow_1_r. lia. Qed.

Lemma double_lxor x y :
  N.double (N.lxor x y) = N.lxor (N.double x) (N.double y).
Proof. rewrite !double_shiftl. apply N.shiftl_lxor. Qed.

Lemma succ_double_lxor x : N.succ_double x = N.lxor 1 (N.double x).
Proof. now destruct x. Qed.

Lemma clmul_0_r a : clmul a 0 = 0.
Proof.
  destruct a as [|p]; [reflexivity|]. simpl.
  induction p as [p IH|p IH|]; simpl; now rewrite ?IH.
Qed.

Lemma clmul_1_l b : clmul 1 b = b.
Proof. reflexivity. Qed.

Lemma clmul_double_l a b : clmul (N.double a) b = N.double (clmul a b).
Proof. now destruct a. Qed.

Lemma clmul_succ_double_l a b :
  clmul (N.succ_double a) b = N.lxor b (N.double (clmul a b)).
Proof. destruct a; simpl; [now rewrite N.lxor_0_r | reflexivity]. Qed.

Lemma clmul_lxor_r a b c :
  clmul a (N.lxor b c) = N.lxor (clmul a b) (clmul a c).
Proof.
  induction a as [|a IH|a IH] using N.binary_ind.
  - reflexivity.
  - now rewrite !clmul_double_l, IH, double_lxor.
  - rewrite !clmul_succ_double_l, IH, double_lxor. xor_ac.
Qed.

Lemma clmul_double_r a b : clmul a (N.double b) = N.double (clmul a b).
Proof.
  induction a as [|a IH|a IH] using N.binary_ind.
  - reflexivity.
  - now rewrite !clmul_double_l, IH.
  - now rewrite !clmul_succ_double_l, IH, double_lxor.
Qed.

Lemma clmul_1_r a : clmul a 1 = a.
Proof.
  induction a as [|a IH|a IH] using N.binary_ind.
  - reflexivity.
  - now rewrite clmul_double_l, IH.
  - now rewrite clmul_succ_double_l, IH, succ_double_lxor.
Qed.

Lemma clmul_comm a b : clmul a b = clmul b a.
Proof.
  revert b. induction a as [|a IH|a IH] using N.binary_ind; intro b.
  - now rewrite clmul_0_r.
  - now rewrite clmul_double_l, clmul_double_r, IH.
  - rewrite clmul_succ_double_l, succ_double_lxor, clmul_lxor_r,
      clmul_1_r, clmul_double_r, IH.
    reflexivity.
Qed.

Lemma clmul_lxor_l a b c :
  clmul (N.lxor a b) c = N.lxor (clmul a c) (clmul b c).
Proof. rewrite !(clmul_comm _ c). apply clmul_lxor_r. Qed.

Lemma clmul_assoc a b c : clmul a (clmul b c) = clmul (clmul a b) c.
Proof.
  induction a as [|a IH|a IH] using N.binary_ind.
  - reflexivity.
  - now rewrite !clmul_double_l, IH.
  - now rewrite !clmul_succ_double_l, clmul_lxor_l, clmul_double_l, IH.
Qed.

Lemma clmul_shiftl_r a b n : clmul a (N.shiftl b n) = N.shiftl (clmul a b) n.
Proof.
  induction n as [|n IH] using N.peano_ind.
  - now rewrite !N.shiftl_0_r.
  - now rewrite !N.shiftl_succ_r, clmul_double_r, IH.
Qed.

Lemma clmul_shiftl_l a b n : clmul (N.shiftl a n) b = N.shiftl (clmul a b) n.
Proof. now rewrite clmul_comm, clmul_shiftl_r, clmul_comm. Qed.

(** *** Sizes *)

Lemma lt_pow2_bits x n :
  x < 2 ^ n <-> (forall m, n <= m -> N.testbit x m = false).
Proof.
  split.
  - intros Hx m Hm. rewrite <- (N.mod_small x (2 ^ n)) by exact Hx.
    now apply N.mod_pow2_bits_high.
  - intro Hb. replace x with (x mod 2 ^ n).
    + apply N.mod_lt, N.pow_nonzero. discriminate.
    + apply N.bits_inj. intro m. destruct (N.lt_ge_cases m n) as [Hm|Hm].
      * now apply N.mod_pow2_bits_low.
      * rewrite N.mod_pow2_bits_high by exact Hm. symmetry. now apply Hb.
Qed.

Lemma lxor_lt_pow2 x y n : x < 2 ^ n -> y < 2 ^ n -> N.lxor x y < 2 ^ n.
Proof.
  rewrite !lt_pow2_bits. intros Hx Hy m Hm.
  now rewrite N.lxor_spec, Hx, Hy.
Qed.

Lemma double_lt_pow2 x n : x < 2 ^ n -> N.double x < 2 ^ N.succ n.
Proof. rewrite N.double_spec, N.pow_succ_r'. lia. Qed.

Lemma clmul_lt a b n k : a < 2 ^ n -> b < 2 ^ k -> clmul a b < 2 ^ (n + k).
Proof.
  intros Ha Hb. revert n Ha.
  induction a as [|a IH|a IH] using N.binary_ind; intros n Ha.
  - simpl. apply N.neq_0_lt_0, N.pow_nonzero. discriminate.
  - destruct (N.eq_dec a 0) as [->|Hnz].
    { simpl. apply N.neq_0_lt_0, N.pow_nonzero. discriminate. }
    destruct n as [|n] using N.peano_ind.
    { rewrite N.double_spec, N.pow_0_r in Ha. lia. }
    rewrite N.double_spec, N.pow_succ_r' in Ha.
    rewrite clmul_double_l, N.add_succ_l.
    apply double_lt_pow2, IH. lia.
  - destruct n as [|n] using N.peano_ind.
    { rewrite N.succ_double_spec, N.pow_0_r in Ha. lia. }
    rewrite N.succ_double_spec, N.pow_succ_r' in Ha.
    rewrite clmul_succ_double_l, N.add_succ_l.
    apply lxor_lt_pow2.
    + eapply N.lt_le_trans; [exact Hb|].
      apply N.pow_le_mono_r; lia.
    + apply double_lt_pow2, IH. lia.
Qed.

(** *** Reduction modulo x^R - 1 *)

Section Reduction.

Variable R : N.

Lemma ones_bits m : N.testbit (N.ones R) m = (m <? R).
Proof.
  destruct (N.ltb_spec m R).
  - now apply N.ones_spec_low.
  - now apply N.ones_spec_high.
Qed.

Lemma ref_red_bits y j :
  N.testbit (ref_red R y) j =
  (j <? R) && xorb (N.testbit y j) (N.testbit y (j + R)).
Proof.
  unfold ref_red.
  rewrite !N.land_spec, N.lxor_spec, N.land_spec, N.shiftr_spec', ones_bits.
  now destruct (j <? R), (N.testbit y j), (N.testbit y (j + R)).
Qed.

Lemma ref_red_lt y : ref_red R y < 2 ^ R.
Proof.
  apply lt_pow2_bits. intros m Hm. rewrite ref_red_bits.
  apply N.ltb_ge in Hm. now rewrite Hm.
Qed.

Lemma fold_equiv_sym a b : fold_equiv R a b -> fold_equiv R b a.
Proof. intros (q & Hq). exists q. now rewrite N.lxor_comm. Qed.

Lemma fold_equiv_trans a b c :
  fold_equiv R a b -> fold_equiv R b c -> fold_equiv R a c.
Proof.
  intros (q1 & H1) (q2 & H2). exists (N.lxor q1 q2).
  rewrite N.shiftl_lxor.
  transitivity (N.lxor (N.lxor a b) (N.lxor b c)); [xor_ac|].
  rewrite H1, H2. xor_ac.
Qed.

Lemma fold_equiv_clmul_l a b c :
  fold_equiv R a b -> fold_equiv R (clmul a c) (clmul b c).
Proof.
  intros (q & Hq). exists (clmul q c).
  now rewrite <- clmul_lxor_l, Hq, clmul_lxor_l, clmul_shiftl_l.
Qed.

Lemma fold_equiv_clmul_r a b c :
  fold_equiv R a b -> fold_equiv R (clmul c a) (clmul c b).
Proof. rewrite !(clmul_comm c). apply fold_equiv_clmul_l. Qed.

Lemma ref_red_equiv y : y < 2 ^ (R + R) -> fold_equiv R (ref_red R y) y.
Proof.
  intro Hy. exists (N.shiftr y R).
  apply N.bits_inj. intro j.
  rewrite !N.lxor_spec, ref_red_bits, N.shiftr_spec'.
  destruct (N.ltb_spec j R) as [Hj|Hj].
  - rewrite N.shiftl_spec_low by exact Hj. cbn [andb].
    now destruct (N.testbit y j), (N.testbit y (j + R)).
  - rewrite N.shiftl_spec_high' by exact Hj.
    rewrite N.shiftr_spec'. replace (j - R + R) with j by lia.
    rewrite (proj1 (lt_pow2_bits y (R + R)) Hy (j + R)) by lia.
    cbn [andb]. now destruct (N.testbit y j).
Qed.

Lemma fold_equiv_eq a b :
  a < 2 ^ R -> b < 2 ^ R -> fold_equiv R a b -> a = b.
Proof.
  intros Ha Hb (q & Hq).
  destruct (N.eq_dec R 0) as [HR0|HR0].
  { rewrite HR0, N.pow_0_r in Ha, Hb. lia. }
  apply N.lxor_eq.
  destruct (N.eq_dec q 0) as [->|Hnz].
  - now rewrite Hq, N.shiftl_0_l.
  - exfalso.
    assert (Hbit : N.testbit (N.lxor a b) (N.log2 q + R) = false).
    { apply (proj1 (lt_pow2_bits _ R)); [now apply lxor_lt_pow2 | lia]. }
    rewrite Hq, N.lxor_spec, N.shiftl_spec_high' in Hbit by lia.
    replace (N.log2 q + R - R) with (N.log2 q) in Hbit by lia.
    rewrite N.bit_log2 in Hbit by exact Hnz.
    rewrite N.bits_above_log2 in Hbit by lia. discriminate.
Qed.

Lemma ref_red_small x : x < 2 ^ R -> ref_red R x = x.
Proof.
  intro Hx. apply fold_equiv_eq; [apply ref_red_lt | exact Hx |].
  apply ref_red_equiv. eapply N.lt_le_trans; [exact Hx|].
  apply N.pow_le_mono_r; lia.
Qed.

Lemma ref_mul_equiv x y :
  x < 2 ^ R -> y < 2 ^ R -> fold_equiv R (ref_mul R x y) (clmul x y).
Proof. intros Hx Hy. apply ref_red_equiv. now apply clmul_lt. Qed.

Lemma ref_mul_comm x y : ref_mul R x y = ref_mul R y x.
Proof. unfold ref_mul. now rewrite clmul_comm. Qed.

Lemma ref_mul_assoc x y z :
  x < 2 ^ R -> y < 2 ^ R -> z < 2 ^ R ->
  ref_mul R x (ref_mul R y z) = ref_mul R (ref_mul R x y) z.
Proof.
  intros Hx Hy Hz.
  apply fold_equiv_eq; try apply ref_red_lt.
  apply fold_equiv_trans with (clmul x (clmul y z)).
  - apply fold_equiv_trans with (clmul x (ref_mul R y z)).
    + apply ref_mul_equiv; [exact Hx | apply ref_red_lt].
    + now apply fold_equiv_clmul_r, ref_mul_equiv.
  - rewrite clmul_assoc. apply fold_equiv_sym.
    apply fold_equiv_trans with (clmul (ref_mul R x y) z).
    + apply ref_mul_equiv; [apply ref_red_lt | exact Hz].
    + now apply fold_equiv_clmul_l, ref_mul_equiv.
Qed.

Lemma ref_mul_one_l x : x < 2 ^ R -> ref_mul R 1 x = x.
Proof. intro Hx. unfold ref_mul. rewrite clmul_1_l. now apply ref_red_small. Qed.

End Reduction.

(** *** Squaring permutes the coefficients *)

Lemma clmul_sqr_double a :
  clmul (N.double a) (N.double a) = N.double (N.double (clmul a a)).
Proof. now rewrite clmul_double_l, clmul_double_r. Qed.

Lemma clmul_sqr_succ_double a :
  clmul (N.succ_double a) (N.succ_double a) =
  N.succ_double (N.double (clmul a a)).
Proof.
  rewrite clmul_succ_double_l, !succ_double_lxor, clmul_lxor_r, clmul_1_r,
    clmul_double_r, !double_lxor.
  xor_ac.
Qed.

Lemma div2_succ_succ k : N.div2 (N.succ (N.succ k)) = N.succ (N.div2 k).
Proof. now destruct k as [|[p|p|]]. Qed.

Lemma double_bits_0 a : N.testbit (N.double a) 0 = false.
Proof. now destruct a. Qed.

Lemma double_bits_succ a n : N.testbit (N.double a) (N.succ n) = N.testbit a n.
Proof. rewrite N.double_spec. apply N.double_bits_succ. Qed.

Lemma succ_double_bits_0 a : N.testbit (N.succ_double a) 0 = true.
Proof. now destruct a. Qed.

Lemma succ_double_bits_succ a n :
  N.testbit (N.succ_double a) (N.succ n) = N.testbit a n.
Proof.
  rewrite N.succ_double_spec. apply N.testbit_odd_succ. apply N.le_0_l.
Qed.

(** The square of a polynomial over F_2 has the coefficients of the
    polynomial at the even positions and nothing in between. *)
Lemma clmul_sqr_bits x :
  forall n, N.testbit (clmul x x) n = N.even n && N.testbit x (N.div2 n).
Proof.
  induction x as [|a IH|a IH] using N.binary_ind; intro n.
  - now rewrite !N.bits_0, andb_false_r.
  - rewrite clmul_sqr_double.
    destruct n as [|n _] using N.peano_ind; [now rewrite !double_bits_0|].
    rewrite double_bits_succ.
    destruct n as [|n _] using N.peano_ind; [now rewrite double_bits_0|].
    rewrite double_bits_succ, IH, N.even_succ_succ, div2_succ_succ.
    now rewrite double_bits_succ.
  - rewrite clmul_sqr_succ_double.
    destruct n as [|n _] using N.peano_ind; [now rewrite !succ_double_bits_0|].
    rewrite succ_double_bits_succ.
    destruct n as [|n _] using N.peano_ind; [now rewrite double_bits_0|].
    rewrite double_bits_succ, IH, N.even_succ_succ, div2_succ_succ.
    now rewrite succ_double_bits_succ.
Qed.

Lemma of_bits_bits F n j :
  N.testbit (of_bits n F) j = (j <? N.of_nat n) && F j.
Proof.
  induction n as [|n IH]; cbn [of_bits].
  - rewrite N.bits_0. now destruct j.
  - assert (Hcase : j = N.of_nat n \/ j <> N.of_nat n) by lia.
    destruct (F (N.of_nat n)) eqn:HF.
    + rewrite N.setbit_eqb, IH.
      destruct Hcase as [->|Hne].
      * rewrite N.eqb_refl, HF.
        symmetry. rewrite andb_true_r. apply N.ltb_lt. lia.
      * replace (N.of_nat n =? j) with false by (symmetry; apply N.eqb_neq; lia).
        cbn [orb]. f_equal.
        destruct (N.ltb_spec j (N.of_nat n)), (N.ltb_spec j (N.of_nat (S n)));
          try reflexivity; lia.
    + rewrite IH. destruct Hcase as [->|Hne].
      * now rewrite HF, !andb_false_r.
      * f_equal.
        destruct (N.ltb_spec j (N.of_nat n)), (N.ltb_spec j (N.of_nat (S n)));
          try reflexivity; lia.
Qed.

Section Permutation.

Variable R : N.
Hypothesis HR : 1 < R.
Hypothesis Hodd : N.odd R = true.

Local Notation "'half_mod'" := (half_mod R).

Lemma half_mod_double : 2 * half_mod = R + 1.
Proof.
  unfold half_mod.
  apply N.odd_spec in Hodd. destruct Hodd as (r & Hr).
  replace (R + 1) with ((r + 1) * 2) by lia.
  rewrite N.div_mul by discriminate. lia.
Qed.

Lemma ref_k_sqr_bits x l j :
  N.testbit (ref_k_sqr R x l) j = (j <? R) && N.testbit x ((l * j) mod R).
Proof. unfold ref_k_sqr. now rewrite of_bits_bits, N2Nat.id. Qed.

Lemma ref_k_sqr_lt x l : ref_k_sqr R x l < 2 ^ R.
Proof.
  apply lt_pow2_bits. intros m Hm. rewrite ref_k_sqr_bits.
  apply N.ltb_ge in Hm. now rewrite Hm.
Qed.

Lemma half_mul_even u : u < R -> (half_mod * (2 * u)) mod R = u.
Proof.
  intro Hu. symmetry. apply N.mod_unique with (q := u); [exact Hu|].
  pose proof half_mod_double. nia.
Qed.

Lemma half_mul_odd u :
  2 * u + 1 < R -> (half_mod * (2 * u + 1)) mod R = u + half_mod.
Proof.
  intro Hu. symmetry. pose proof half_mod_double as Hh.
  apply N.mod_unique with (q := u); [lia | nia].
Qed.

(** The ring square is the permutation with parameter [2^-1 mod R]. *)
Lemma ref_mul_sqr_perm x :
  x < 2 ^ R -> ref_mul R x x = ref_k_sqr R x half_mod.
Proof.
  intro Hx. apply N.bits_inj. intro j.
  unfold ref_mul. rewrite ref_red_bits, ref_k_sqr_bits, !clmul_sqr_bits.
  destruct (N.ltb_spec j R) as [Hj|Hj]; [cbn [andb] | reflexivity].
  pose proof half_mod_double as Hh.
  pose proof Hodd as Hr. apply N.odd_spec in Hr. destruct Hr as (r & Hr).
  assert (Hhr : half_mod = r + 1) by lia.
  destruct (N.Even_or_Odd j) as [(u & Hu)|(u & Hu)]; subst j.
  - rewrite half_mul_even by lia.
    assert (E : 2 * u + R = 2 * (u + r) + 1) by lia. rewrite E.
    rewrite N.even_odd, N.even_mul, <- (N.double_spec u), N.div2_double.
    cbn [N.even orb andb]. now rewrite xorb_false_r.
  - rewrite half_mul_odd by lia.
    assert (E : 2 * u + 1 + R = N.double (u + half_mod)) by lia. rewrite E.
    rewrite N.even_odd, N.div2_double, (N.double_spec (u + half_mod)).
    now rewrite N.even_mul.
Qed.

Lemma ref_k_sqr_compose x l l' :
  ref_k_sqr R (ref_k_sqr R x l) l' = ref_k_sqr R x ((l * l') mod R).
Proof.
  apply N.bits_inj. intro j. rewrite !ref_k_sqr_bits.
  destruct (j <? R); [cbn [andb] | reflexivity].
  assert (Hlt : (l' * j) mod R < R) by (apply N.mod_lt; lia).
  apply N.ltb_lt in Hlt. rewrite Hlt. cbn [andb].
  rewrite N.Div0.mul_mod_idemp_r, N.Div0.mul_mod_idemp_l.
  now rewrite N.mul_assoc.
Qed.

Lemma ref_k_sqr_1 x : x < 2 ^ R -> ref_k_sqr R x 1 = x.
Proof.
  intro Hx. apply N.bits_inj. intro j. rewrite ref_k_sqr_bits, N.mul_1_l.
  destruct (N.ltb_spec j R) as [Hj|Hj]; cbn [andb].
  - now rewrite N.mod_small.
  - symmetry. now apply (proj1 (lt_pow2_bits x R)).
Qed.

Lemma ref_closed_commutative :
  closed_commutative (ref_ops R) (ref_wf R).
Proof.
  split; unfold ref_wf; cbn [op_mul op_sqr op_red op_k_sqr ref_ops].
  - intros. apply ref_red_lt.
  - intros. apply ref_red_lt.
  - intros. apply ref_k_sqr_lt.
  - intros. apply ref_mul_comm.
Qed.

Lemma ref_ring_monoid : ring_monoid (ref_ops R) 1 (ref_wf R).
Proof.
  split; unfold ref_wf; cbn [op_mul op_sqr op_red op_k_sqr ref_ops].
  - apply ref_closed_commutative.
  - apply N.pow_gt_1; lia.
  - intros. now apply ref_mul_assoc.
  - intros. now apply ref_mul_one_l.
Qed.

Lemma half_pow_mod k : (2 ^ k * half_mod ^ k) mod R = 1.
Proof.
  rewrite <- N.pow_mul_l, half_mod_double.
  induction k as [|k IH] using N.peano_ind.
  - rewrite N.pow_0_r. apply N.mod_small. lia.
  - rewrite N.pow_succ_r', <- N.Div0.mul_mod_idemp_r, IH, N.mul_1_r.
    replace (R + 1) with (1 + 1 * R) by lia.
    rewrite N.Div0.mod_add. apply N.mod_small. lia.
Qed.

Lemma inv_pow2_unique k l :
  l < R -> (2 ^ k * l) mod R = 1 -> l = half_mod ^ k mod R.
Proof.
  intros Hl Hinv.
  rewrite <- (N.mod_small l R) at 1 by exact Hl.
  rewrite <- (N.mul_1_r l) at 1.
  rewrite <- (half_pow_mod k), N.Div0.mul_mod_idemp_r.
  replace (l * (2 ^ k * half_mod ^ k)) with ((2 ^ k * l) * half_mod ^ k) by lia.
  rewrite <- N.Div0.mul_mod_idemp_l, Hinv. now rewrite N.mul_1_l.
Qed.

(** The power [2^k] is the permutation with parameter [(2^-1)^k mod R]. *)
Lemma ref_pow2_perm x k :
  x < 2 ^ R ->
  gpow (ref_mul R) 1 x (2 ^ k) = ref_k_sqr R x (half_mod ^ k mod R).
Proof.
  intro Hx. pose proof ref_ring_monoid as HM.
  change (ref_mul R) with (op_mul (ref_ops R)).
  induction k as [|k IH] using N.peano_ind.
  - rewrite !N.pow_0_r, N.mod_small by exact HR.
    rewrite ref_k_sqr_1 by exact Hx. now apply (gpow_1 _ _ _ _ _ HM).
  - replace (2 ^ N.succ k) with (2 ^ k * 2) by (rewrite N.pow_succ_r'; lia).
    rewrite <- (gpow_mul _ _ _ _ _ HM) by exact Hx.
    rewrite <- (gpow_2 _ _ _ _ _ HM) by (apply (gpow_wf _ _ _ _ _ HM); exact Hx).
    rewrite IH. cbn [op_mul ref_ops].
    rewrite ref_mul_sqr_perm by apply ref_k_sqr_lt.
    rewrite ref_k_sqr_compose, N.Div0.mul_mod_idemp_l.
    now rewrite N.pow_succ_r', (N.mul_comm half_mod).
Qed.

Lemma ref_arith_contract : arith_contract R (ref_ops R) 1 (ref_wf R).
Proof.
  split.
  - apply ref_ring_monoid.
  - reflexivity.
  - intros x k l Hx Hl Hinv. cbn [op_mul op_k_sqr ref_ops].
    rewrite (ref_pow2_perm x k Hx). f_equal. now apply inv_pow2_unique.
Qed.

End Permutation.

(** ** The tables of every level *)

Lemma pow2_pos n : 1 <= 2 ^ n.
Proof.
  assert (2 ^ n <> 0) by (apply N.pow_nonzero; discriminate). lia.
Qed.

Lemma length_step_spec p i mf mt mf' mt' :
  length_step p i (Some (mf, mt)) = Some (mf', mt') ->
  exponent_step p i (2 ^ mf - 1, 2 ^ mt - 1) = (2 ^ mf' - 1, 2 ^ mt' - 1).
Proof.
  unfold length_step, exponent_step.
  destruct (N.eqb_spec (idx (EXP0_K_VALS p) (i - 1)) mf) as [->|];
    [|discriminate].
  assert (Hf : (2 ^ mf - 1) * 2 ^ mf + (2 ^ mf - 1) = 2 ^ (mf + mf) - 1).
  { rewrite N.pow_add_r. pose proof (pow2_pos mf). nia. }
  rewrite Hf.
  destruct (idx (EXP1_K_VALS p) i =? 0).
  - intro H. now inversion H.
  - destruct (N.eqb_spec (idx (EXP1_K_VALS p) i) mt) as [->|]; [|discriminate].
    intro H. inversion H. subst mf' mt'. f_equal.
    rewrite (N.pow_add_r 2 mt).
    pose proof (pow2_pos mt). pose proof (pow2_pos (mf + mf)). nia.
Qed.

Lemma length_steps_none p n :
  forall i, for_count n i (length_step p) None = None.
Proof. induction n as [|n IH]; intro i; [reflexivity | apply IH]. Qed.

Lemma length_steps_spec p n :
  forall i mf mt mf' mt',
    for_count n i (length_step p) (Some (mf, mt)) = Some (mf', mt') ->
    for_count n i (exponent_step p) (2 ^ mf - 1, 2 ^ mt - 1) =
      (2 ^ mf' - 1, 2 ^ mt' - 1).
Proof.
  induction n as [|n IH]; intros i mf mt mf' mt' H; cbn [for_count] in *.
  - now inversion H.
  - destruct (length_step p i (Some (mf, mt))) as [[mf1 mt1]|] eqn:Hs.
    + rewrite (length_step_spec _ _ _ _ _ _ Hs). now apply IH.
    + now rewrite length_steps_none in H.
Qed.

(** Tables that keep the shape to the end raise to [2^(mt+1) - 2]. *)
Lemma chain_lengths_exponent p mf mt :
  chain_lengths p = Some (mf, mt) ->
  chain_exponent p = 2 ^ N.succ mt - 2.
Proof.
  intro H. unfold chain_exponent, chain_exponents, for_loop.
  change (1, 1) with (2 ^ 1 - 1, 2 ^ 1 - 1).
  rewrite (length_steps_spec _ _ _ _ _ _ _ H). cbn [snd].
  rewrite N.pow_succ_r'. pose proof (pow2_pos mt). lia.
Qed.

Lemma level_R_gt_1 lvl : 1 < R_BITS lvl.
Proof. now destruct lvl. Qed.

Lemma level_R_odd lvl : N.odd (R_BITS lvl) = true.
Proof. now destruct lvl. Qed.

Lemma level_fermat lvl : 2 ^ (R_BITS lvl - 1) mod R_BITS lvl = 1.
Proof. rewrite <- pow_mod_spec. now destruct lvl. Qed.

Lemma level_tables_ok lvl : chain_tables_ok (R_BITS lvl) (params lvl) = true.
Proof. now destruct lvl. Qed.

Lemma level_lengths lvl :
  chain_lengths (params lvl) = Some (MAX_I_pow lvl, R_BITS lvl - 2).
Proof. now destruct lvl. Qed.

Lemma level_exponent lvl :
  chain_exponent (params lvl) = 2 ^ (R_BITS lvl - 1) - 2.
Proof.
  rewrite (chain_lengths_exponent _ _ _ (level_lengths lvl)).
  f_equal. f_equal. pose proof (level_R_gt_1 lvl). lia.
Qed.

Lemma all_entries_spec ok lvl :
  all_entries ok lvl = true ->
  forall i, i < MAX_I (params lvl) -> ok lvl i = true.
Proof.
  unfold all_entries. rewrite forallb_forall. intros H i Hi.
  rewrite <- (N2Nat.id i). apply H, in_seq. lia.
Qed.

Lemma level_entries_inverse lvl : all_entries entry_inverse_ok lvl = true.
Proof. now destruct lvl. Qed.

Lemma level_entries_derived lvl : all_entries entry_derived_ok lvl = true.
Proof. now destruct lvl. Qed.

(** ** The table entries *)

(** C4.  In the tables of every level, each exponent [k] that has an
    inverse entry [l] (every [exp0_k[i]], and [exp1_k[i]] when it is not
    zero) satisfies [(2^k mod R) * l = 1 (mod R)]; for R = 773 the first
    entry is [exp0_l[0] = 387] and [2 * 387 mod 773 = 1]. *)
Theorem table_inverses :
  (forall lvl i,
     i < MAX_I (params lvl) ->
     let p := params lvl in
     let R := R_BITS lvl in
     (2 ^ idx (EXP0_K_VALS p) i mod R * idx (EXP0_L_VALS p) i) mod R = 1 /\
     (idx (EXP1_K_VALS p) i <> 0 ->
      (2 ^ idx (EXP1_K_VALS p) i mod R * idx (EXP1_L_VALS p) i) mod R = 1)) /\
  R_BITS LEVEL_11 = 773 /\
  idx (EXP0_L_VALS (params LEVEL_11)) 0 = 387 /\
  (2 * 387) mod 773 = 1.
Proof.
  split; [|repeat split].
  intros lvl i Hi p R.
  pose proof (all_entries_spec _ _ (level_entries_inverse lvl) i Hi) as H.
  unfold entry_inverse_ok in H. fold p R in H.
  apply andb_prop in H as [H0 H1].
  split; [now apply is_inv_pow2_spec|].
  intro Hnz. apply is_inv_pow2_spec.
  destruct (N.eqb_spec (idx (EXP1_K_VALS p) i) 0) as [E|_];
    [contradiction | exact H1].
Qed.

Lemma table_inverses_witness :
  let p := params LEVEL_11 in
  (2 ^ idx (EXP0_K_VALS p) 9 mod 773 * idx (EXP0_L_VALS p) 9) mod 773 = 1 /\
  (idx (EXP1_K_VALS p) 9 <> 0 ->
   (2 ^ idx (EXP1_K_VALS p) 9 mod 773 * idx (EXP1_L_VALS p) 9) mod 773 = 1).
Proof.
  apply (proj1 table_inverses LEVEL_11 9). reflexivity.
Defined.

(** C5.  For every level the hard-coded parameters are the ones of the
    recipe: the ring size is one of the eleven supported ones and is the
    one the block asserts, [MAX_I = floor(log2(R-2)) + 1], the four arrays
    have [MAX_I] entries, [exp0_k[i] = 2^i], and [exp1_k[i]] is
    [(R-2) mod 2^i] when bit [i] of [R-2] is set and 0 otherwise. *)
Theorem tables_follow_recipe :
  (forall lvl,
     let p := params lvl in
     let R := R_BITS lvl in
     In R supported_sizes /\
     R_EXPECTED p = R /\
     MAX_I p = N.log2 (R - 2) + 1 /\
     N.of_nat (length (EXP0_K_VALS p)) = MAX_I p /\
     N.of_nat (length (EXP0_L_VALS p)) = MAX_I p /\
     N.of_nat (length (EXP1_K_VALS p)) = MAX_I p /\
     N.of_nat (length (EXP1_L_VALS p)) = MAX_I p /\
     EXP0_K_VALS p = sage_exp0_k R /\
     EXP1_K_VALS p = sage_exp1_k R /\
     idx (EXP1_K_VALS p) 0 = 0 /\
     forall i, i < MAX_I p ->
       idx (EXP0_K_VALS p) i = 2 ^ i /\
       idx (EXP1_K_VALS p) i =
         if N.testbit (R - 2) i then (R - 2) mod 2 ^ i else 0) /\
  (forall r, In r supported_sizes -> exists lvl, R_BITS lvl = r).
Proof.
  split.
  - intros lvl p R.
    assert (Hentries : forall i, i < MAX_I p ->
              idx (EXP0_K_VALS p) i = 2 ^ i /\
              idx (EXP1_K_VALS p) i =
                if N.testbit (R - 2) i then (R - 2) mod 2 ^ i else 0).
    { intros i Hi.
      pose proof (all_entries_spec _ _ (level_entries_derived lvl) i Hi) as H.
      unfold entry_derived_ok in H. fold p R in H.
      apply andb_prop in H as [H0 H1].
      now apply N.eqb_eq in H0, H1. }
    split.
    { subst p R. unfold supported_sizes.
      destruct lvl; cbn [In R_BITS];
        repeat (first [left; reflexivity | right]). }
    subst p R. destruct lvl; cbn [params R_BITS] in *;
      repeat (split; [reflexivity|]); exact Hentries.
  - unfold supported_sizes. cbn [In]. intros r Hr.
    repeat (destruct Hr as [<-|Hr]);
      [ exists LEVEL_11 | exists LEVEL_12 | exists LEVEL_13 | exists LEVEL_14
      | exists LEVEL_15 | exists LEVEL_16 | exists LEVEL_17 | exists LEVEL_18
      | exists LEVEL_10 | exists LEVEL_1 | exists LEVEL_3 | contradiction ];
      reflexivity.
Qed.

Lemma tables_follow_recipe_witness :
  idx (EXP0_K_VALS (params LEVEL_11)) 9 = 2 ^ 9 /\
  idx (EXP1_K_VALS (params LEVEL_11)) 9 =
    (if N.testbit (773 - 2) 9 then (773 - 2) mod 2 ^ 9 else 0).
Proof.
  destruct (proj1 tables_follow_recipe LEVEL_11)
    as (_ & _ & _ & _ & _ & _ & _ & _ & _ & _ & H).
  apply (H 9). reflexivity.
Defined.

(** ** The reference arithmetic at the levels, and a sample element *)

Lemma ctx_of_ops_implements (T D : Type) (V : gf2x_ops T D) :
  implements (ctx_of_ops V) V.
Proof. now split. Qed.

Lemma sample_a_wf : ref_wf 773 sample_a.
Proof. reflexivity. Qed.

Lemma sample_a_invertible : invertible (ref_ops 773) 1 (ref_wf 773) sample_a.
Proof. exists sample_a_inv. split; vm_compute; reflexivity. Qed.

Lemma ref_arith_contract_level lvl :
  arith_contract (R_BITS lvl) (ref_ops (R_BITS lvl)) 1 (ref_wf (R_BITS lvl)).
Proof.
  apply ref_arith_contract; [apply level_R_gt_1 | apply level_R_odd].
Qed.

(** With the reference arithmetic the code inverts in F_2[x]/(x^R - 1)
    itself, at every level. *)
Lemma ref_gf2x_mod_inv_inverts lvl a st :
  ref_wf (R_BITS lvl) a ->
  invertible (ref_ops (R_BITS lvl)) 1 (ref_wf (R_BITS lvl)) a ->
  let c := out_c (gf2x_mod_inv 0 0 (params lvl)
                    (ctx_of_ops (ref_ops (R_BITS lvl))) a st) in
  ref_mul (R_BITS lvl) c a = 1 /\
  forall b, ref_wf (R_BITS lvl) b -> ref_mul (R_BITS lvl) a b = 1 -> b = c.
Proof.
  intros Ha Hinv c. subst c.
  pose proof (ref_arith_contract_level lvl) as HC.
  rewrite (gf2x_mod_inv_refines _ _ 0 0 _ _ _
             (ctx_of_ops_implements N N (ref_ops (R_BITS lvl)))
             (monoid_closed (contract_monoid HC)) (params lvl) a st Ha).
  destruct (invert_correct _ _ _ _ _ _ HC (params lvl) a
              (level_R_gt_1 lvl) (level_fermat lvl) (level_tables_ok lvl)
              (level_exponent lvl) Ha Hinv) as (_ & Hi & Hu).
  split; [exact Hi | exact Hu].
Qed.

(** The sample: the chain returns [sample_a_inv]. *)
Lemma sample_inverse_found :
  out_c (gf2x_mod_inv 0 0 (params LEVEL_11) (ctx_of_ops (ref_ops 773))
           sample_a sample_state) = sample_a_inv.
Proof.
  destruct (ref_gf2x_mod_inv_inverts LEVEL_11 sample_a sample_state
              sample_a_wf sample_a_invertible) as (_ & Hu).
  symmetry. apply Hu; vm_compute; reflexivity.
Qed.

(** ** Inversion *)

(** C1.  For every level and every context that meets the contracts of
    section 6 for that level's R, [gf2x_mod_inv] applied to an invertible
    ring element [a] leaves in [*c] a ring element [c] with [c * a = 1],
    and [c] is the only ring element with [a * c = 1]. *)
Theorem gf2x_mod_inv_inverts (lvl : level) (T D : Type) (zero : T)
  (dzero : D) (ctx : gf2x_ctx T D) (V : gf2x_ops T D) (one : T)
  (wf : T -> Prop) (a : T) (st : machine T D) :
  implements ctx V ->
  arith_contract (R_BITS lvl) V one wf ->
  wf a ->
  invertible V one wf a ->
  let c := out_c (gf2x_mod_inv zero dzero (params lvl) ctx a st) in
  wf c /\
  op_mul V c a = one /\
  (forall c', wf c' -> op_mul V a c' = one -> c' = c).
Proof.
  intros Himpl HC Ha Hinv c. subst c.
  rewrite (gf2x_mod_inv_refines _ _ zero dzero ctx V wf Himpl
             (monoid_closed (contract_monoid HC)) (params lvl) a st Ha).
  apply (invert_correct _ _ V one wf (R_BITS lvl) HC (params lvl) a
           (level_R_gt_1 lvl) (level_fermat lvl) (level_tables_ok lvl)
           (level_exponent lvl) Ha Hinv).
Qed.

Lemma gf2x_mod_inv_inverts_witness :
  let c := out_c (gf2x_mod_inv 0 0 (params LEVEL_11)
                    (ctx_of_ops (ref_ops 773)) sample_a sample_state) in
  ref_wf 773 c /\
  op_mul (ref_ops 773) c sample_a = 1 /\
  (forall c', ref_wf 773 c' -> op_mul (ref_ops 773) sample_a c' = 1 ->
              c' = c).
Proof.
  exact (gf2x_mod_inv_inverts LEVEL_11 N N 0 0 (ctx_of_ops (ref_ops 773))
           (ref_ops 773) 1 (ref_wf 773) sample_a sample_state
           (ctx_of_ops_implements N N (ref_ops 773))
           (ref_arith_contract 773 eq_refl eq_refl)
           sample_a_wf sample_a_invertible).
Defined.

(** C7.  Under the same assumptions, inverting the inverse of an
    invertible ring element gives the element back. *)
Theorem gf2x_mod_inv_twice (lvl : level) (T D : Type) (zero : T)
  (dzero : D) (ctx : gf2x_ctx T D) (V : gf2x_ops T D) (one : T)
  (wf : T -> Prop) (a : T) (st st' : machine T D) :
  implements ctx V ->
  arith_contract (R_BITS lvl) V one wf ->
  wf a ->
  invertible V one wf a ->
  out_c (gf2x_mod_inv zero dzero (params lvl) ctx
           (out_c (gf2x_mod_inv zero dzero (params lvl) ctx a st)) st') = a.
Proof.
  intros Himpl HC Ha Hinv.
  pose proof (monoid_closed (contract_monoid HC)) as Hcc.
  rewrite (gf2x_mod_inv_refines _ _ zero dzero ctx V wf Himpl Hcc
             (params lvl) a st Ha).
  destruct (invert_correct _ _ V one wf (R_BITS lvl) HC (params lvl) a
              (level_R_gt_1 lvl) (level_fermat lvl) (level_tables_ok lvl)
              (level_exponent lvl) Ha Hinv) as (Hw & _).
  rewrite (gf2x_mod_inv_refines _ _ zero dzero ctx V wf Himpl Hcc
             (params lvl) _ st' Hw).
  apply (invert_involutive _ _ V one wf (R_BITS lvl) HC (params lvl) a
           (level_R_gt_1 lvl) (level_fermat lvl) (level_tables_ok lvl)
           (level_exponent lvl) Ha Hinv).
Qed.

Lemma gf2x_mod_inv_twice_witness :
  out_c (gf2x_mod_inv 0 0 (params LEVEL_11) (ctx_of_ops (ref_ops 773))
           (out_c (gf2x_mod_inv 0 0 (params LEVEL_11)
                     (ctx_of_ops (ref_ops 773)) sample_a sample_state))
           sample_state) = sample_a.
Proof.
  exact (gf2x_mod_inv_twice LEVEL_11 N N 0 0 (ctx_of_ops (ref_ops 773))
           (ref_ops 773) 1 (ref_wf 773) sample_a sample_state sample_state
           (ctx_of_ops_implements N N (ref_ops 773))
           (ref_arith_contract 773 eq_refl eq_refl)
           sample_a_wf sample_a_invertible).
Defined.

(** C3.  With a context that computes the four operations on values and a
    commutative multiply, [gf2x_mod_inv] leaves in [*c] exactly what the
    pseudocode of section 4.2 computes: [f] and [t] start at [a], every
    pass from 1 to MAX_I-1 sets [g = f^(2^exp0_k[i-1])], [f = f*g] and,
    when [exp1_k[i] != 0], [g = f^(2^exp1_k[i])], [t = t*g], and the
    result is one modular squaring of [t]. *)
Theorem gf2x_mod_inv_is_invert (p : inv_params) (T D : Type) (zero : T)
  (dzero : D) (ctx : gf2x_ctx T D) (V : gf2x_ops T D) (wf : T -> Prop)
  (a : T) (st : machine T D) :
  implements ctx V ->
  closed_commutative V wf ->
  wf a ->
  out_c (gf2x_mod_inv zero dzero p ctx a st) = invert V p a.
Proof.
  intros Himpl Hcc Ha.
  apply (gf2x_mod_inv_refines _ _ zero dzero ctx V wf Himpl Hcc p a st Ha).
Qed.

Lemma gf2x_mod_inv_is_invert_witness :
  out_c (gf2x_mod_inv 0 0 (params LEVEL_11) (ctx_of_ops (ref_ops 773))
           sample_a sample_state) =
  invert (ref_ops 773) (params LEVEL_11) sample_a.
Proof.
  exact (gf2x_mod_inv_is_invert (params LEVEL_11) N N 0 0
           (ctx_of_ops (ref_ops 773)) (ref_ops 773) (ref_wf 773)
           sample_a sample_state
           (ctx_of_ops_implements N N (ref_ops 773))
           (ref_closed_commutative 773)
           sample_a_wf).
Defined.

(** ** The calls issued *)

(** C2.  The calls [gf2x_mod_inv] makes through the context - which ones,
    with which pointers and parameters, in which order - are the same for
    any two inputs [a1] and [a2], whatever the context computes: they are
    the list [gf2x_mod_inv_calls], a function of the tables alone. *)
Theorem gf2x_mod_inv_calls_public (p : inv_params) (T D : Type) (zero : T)
  (dzero : D) (ctx : gf2x_ctx T D) (a1 a2 : T) (st : machine T D) :
  calls (gf2x_mod_inv zero dzero p ctx a1 st) =
    calls (gf2x_mod_inv zero dzero p ctx a2 st) /\
  calls (gf2x_mod_inv zero dzero p ctx a1 st) =
    calls st ++ gf2x_mod_inv_calls p.
Proof.
  rewrite (issues_gf2x_mod_inv T D zero dzero ctx p a1 st).
  rewrite (issues_gf2x_mod_inv T D zero dzero ctx p a2 st).
  split; reflexivity.
Qed.

(** C6.  An exponentiation step makes exactly [k] pairs of calls "square
    into the double-width buffer, reduce" when [k <= 64], and otherwise
    exactly one [k_sqr] call with parameter [l].  With a context that meets
    the contracts and [l] the inverse of [2^k] modulo R, the repeated
    squaring and the k-squaring both leave [x^(2^k)] in the destination, and
    so does the step, whichever branch the threshold selects. *)
Theorem exponentiation_branches (T D : Type) (ctx : gf2x_ctx T D)
  (V : gf2x_ops T D) (one : T) (wf : T -> Prop) (R : N)
  (dst src : pad_ptr) (k l : N) (st : machine T D) :
  implements ctx V ->
  arith_contract R V one wf ->
  wf (load src (locals st)) ->
  l < R ->
  (2 ^ k * l) mod R = 1 ->
  let x := load src (locals st) in
  (k <= K_SQR_THR ->
   calls (exponentiation dst src k l ctx st) =
     calls st ++
     concat (repeat [call_sqr ptr_sec_buf dst; call_red dst ptr_sec_buf]
                    (N.to_nat k))) /\
  (K_SQR_THR < k ->
   calls (exponentiation dst src k l ctx st) =
     calls st ++ [call_k_sqr dst src l]) /\
  load dst (locals (repeated_squaring dst src k ptr_sec_buf ctx st)) =
    gpow (op_mul V) one x (2 ^ k) /\
  load dst (locals (call_ctx_k_sqr ctx dst src l st)) =
    gpow (op_mul V) one x (2 ^ k) /\
  load dst (locals (exponentiation dst src k l ctx st)) =
    gpow (op_mul V) one x (2 ^ k).
Proof.
  intros Himpl HC Hx Hl Hinv x.
  assert (Hrep : load dst (locals (repeated_squaring dst src k ptr_sec_buf
                                     ctx st)) =
                 gpow (op_mul V) one x (2 ^ k)).
  { destruct (repeated_squaring_writes T D ctx V Himpl dst src k
                ptr_sec_buf st) as (Hv & _).
    rewrite Hv. now apply (iter_msqr_pow T D V one wf R HC). }
  assert (Hks : load dst (locals (call_ctx_k_sqr ctx dst src l st)) =
                gpow (op_mul V) one x (2 ^ k)).
  { destruct (k_sqr_writes T D ctx V Himpl dst src l st) as (Hv & _).
    rewrite Hv. now apply (k_sqr_pow HC). }
  rewrite (issues_exponentiation T D ctx dst src k l st).
  unfold exponentiation, exponentiation_calls, sqr_in_place_calls.
  repeat split.
  - intro Hk. apply N.leb_le in Hk. now rewrite Hk.
  - intro Hk. apply N.leb_gt in Hk. now rewrite Hk.
  - exact Hrep.
  - exact Hks.
  - destruct (k <=? K_SQR_THR); assumption.
Qed.

Lemma exponentiation_branches_witness :
  let st := mk_machine (mk_frame sample_a 8 9 10) 11 [] in
  let ctx := ctx_of_ops (ref_ops 773) in
  let x := load ptr_f (locals st) in
  (128 <= K_SQR_THR ->
   calls (exponentiation ptr_g ptr_f 128 549 ctx st) =
     calls st ++
     concat (repeat [call_sqr ptr_sec_buf ptr_g; call_red ptr_g ptr_sec_buf]
                    (N.to_nat 128))) /\
  (K_SQR_THR < 128 ->
   calls (exponentiation ptr_g ptr_f 128 549 ctx st) =
     calls st ++ [call_k_sqr ptr_g ptr_f 549]) /\
  load ptr_g (locals (repeated_squaring ptr_g ptr_f 128 ptr_sec_buf ctx st)) =
    gpow (op_mul (ref_ops 773)) 1 x (2 ^ 128) /\
  load ptr_g (locals (call_ctx_k_sqr ctx ptr_g ptr_f 549 st)) =
    gpow (op_mul (ref_ops 773)) 1 x (2 ^ 128) /\
  load ptr_g (locals (exponentiation ptr_g ptr_f 128 549 ctx st)) =
    gpow (op_mul (ref_ops 773)) 1 x (2 ^ 128).
Proof.
  exact (exponentiation_branches N N (ctx_of_ops (ref_ops 773))
           (ref_ops 773) 1 (ref_wf 773) 773 ptr_g ptr_f 128 549
           (mk_machine (mk_frame sample_a 8 9 10) 11 [])
           (ctx_of_ops_implements N N (ref_ops 773))
           (ref_arith_contract 773 eq_refl eq_refl)
           sample_a_wf eq_refl eq_refl).
Defined.

(** ** The scratch objects *)

(** C8.  Whatever the context does and whatever the stack held, the call
    starts from an all-zero frame and, on its one way out, leaves [f], [g],
    [t] and [sec_buf] all zero, after the result has been copied to
    [*c]. *)
Theorem scratch_zeroized (p : inv_params) (T D : Type) (zero : T)
  (dzero : D) (ctx : gf2x_ctx T D) (a : T) (st : machine T D) :
  locals (enter_frame zero dzero st) = mk_frame zero zero zero dzero /\
  locals (gf2x_mod_inv zero dzero p ctx a st) =
    mk_frame zero zero zero dzero /\
  out_c (gf2x_mod_inv zero dzero p ctx a st) =
    load ptr_t (locals (gf2x_mod_inv_body zero dzero p ctx a st)).
Proof. repeat split. Qed.

(** ** Destinations that are also sources *)

Lemma exponentiation_calls_no_mul dst src k l d x y :
  ~ In (call_mul d x y) (exponentiation_calls dst src k l).
Proof.
  unfold exponentiation_calls. destruct (k <=? K_SQR_THR).
  - induction (N.to_nat k) as [|n IH]; cbn [repeat concat];
      [intros [] |].
    rewrite in_app_iff. intros [H|H]; [|now apply IH].
    cbn in H. destruct H as [H|[H|[]]]; discriminate.
  - cbn. intros [H|[]]. discriminate.
Qed.

Lemma inv_loop_body_calls_mul p i d x y :
  In (call_mul d x y) (inv_loop_body_calls p i) ->
  x = ptr_g /\ d = y /\ (d = ptr_f \/ d = ptr_t).
Proof.
  unfold inv_loop_body_calls. rewrite !in_app_iff.
  intros [H|[H|H]].
  - now apply exponentiation_calls_no_mul in H.
  - destruct H as [H|[]]. inversion H. auto.
  - destruct (negb (idx (EXP1_K_VALS p) i =? 0)); [|destruct H].
    rewrite in_app_iff in H. destruct H as [H|[H|[]]].
    + now apply exponentiation_calls_no_mul in H.
    + inversion H. auto.
Qed.

Lemma gf2x_mod_inv_calls_mul p d x y :
  In (call_mul d x y) (gf2x_mod_inv_calls p) ->
  x = ptr_g /\ d = y /\ (d = ptr_f \/ d = ptr_t).
Proof.
  unfold gf2x_mod_inv_calls. rewrite in_app_iff, in_flat_map.
  intros [(j & _ & H)|H].
  - now apply inv_loop_body_calls_mul in H.
  - cbn in H. destruct H as [H|[H|[]]]; discriminate.
Qed.

Lemma level_MAX_I_ge_2 lvl : 2 <= MAX_I (params lvl).
Proof. now destruct lvl. Qed.

Lemma level_last_exp1 lvl :
  idx (EXP1_K_VALS (params lvl)) (MAX_I (params lvl) - 1) <> 0.
Proof. now destruct lvl. Qed.

Lemma gf2x_mod_inv_calls_mul_f lvl :
  In (call_mul ptr_f ptr_g ptr_f) (gf2x_mod_inv_calls (params lvl)).
Proof.
  unfold gf2x_mod_inv_calls. rewrite in_app_iff, in_flat_map. left.
  exists 1%nat. split.
  - apply in_seq. pose proof (level_MAX_I_ge_2 lvl). lia.
  - unfold inv_loop_body_calls. rewrite !in_app_iff. right. left. now left.
Qed.

Lemma gf2x_mod_inv_calls_mul_t lvl :
  In (call_mul ptr_t ptr_g ptr_t) (gf2x_mod_inv_calls (params lvl)).
Proof.
  unfold gf2x_mod_inv_calls. rewrite in_app_iff, in_flat_map. left.
  exists (N.to_nat (MAX_I (params lvl) - 1)). split.
  - apply in_seq. pose proof (level_MAX_I_ge_2 lvl). lia.
  - unfold inv_loop_body_calls. rewrite N2Nat.id, !in_app_iff.
    right. right.
    destruct (N.eqb_spec (idx (EXP1_K_VALS (params lvl))
                               (MAX_I (params lvl) - 1)) 0) as [E|_].
    + now apply level_last_exp1 in E.
    + cbn [negb]. rewrite in_app_iff. right. now left.
Qed.

Lemma ctx_clear_first_unaliased (T D : Type) (V : gf2x_ops T D) (zero : T) :
  implements_unaliased (ctx_clear_first V zero) V.
Proof.
  split; try reflexivity.
  intros dst a b m Ha Hb. cbn.
  rewrite !load_store_other by congruence.
  now destruct dst.
Qed.

(** With the multiply that clears its destination first, the chain for the
    sample element ends in 0. *)
Lemma clear_first_result :
  out_c (gf2x_mod_inv 0 0 (params LEVEL_11)
           (ctx_clear_first (ref_ops 773) 0) sample_a sample_state) = 0.
Proof. vm_compute. reflexivity. Qed.

(** C10.  At every level, every multiplication [gf2x_mod_inv] issues has
    [g] as first operand and its destination as second operand, the
    destination being [f] or [t]; both [f = g*f] and [t = g*t] do occur;
    and the last two calls square [t] in place through [sec_buf].  The
    result depends on the multiply reading its operands before it writes:
    a context that computes the reference arithmetic on every call whose
    destination is not a source, but clears the destination first, does
    not invert the sample element. *)
Theorem multiplications_alias_destination :
  (forall lvl (T D : Type) (zero : T) (dzero : D) (ctx : gf2x_ctx T D)
          (a : T) (st : machine T D),
     let tr := gf2x_mod_inv_calls (params lvl) in
     calls (gf2x_mod_inv zero dzero (params lvl) ctx a st) = calls st ++ tr /\
     (forall d x y, In (call_mul d x y) tr ->
                    x = ptr_g /\ d = y /\ (d = ptr_f \/ d = ptr_t)) /\
     In (call_mul ptr_f ptr_g ptr_f) tr /\
     In (call_mul ptr_t ptr_g ptr_t) tr /\
     exists tr',
       tr = tr' ++ [call_sqr ptr_sec_buf ptr_t; call_red ptr_t ptr_sec_buf]) /\
  (exists ctx : gf2x_ctx N N,
     implements_unaliased ctx (ref_ops 773) /\
     op_mul (ref_ops 773)
       (out_c (gf2x_mod_inv 0 0 (params LEVEL_11) ctx sample_a sample_state))
       sample_a <> 1).
Proof.
  split.
  - intros lvl T D zero dzero ctx a st tr. subst tr.
    split; [apply issues_gf2x_mod_inv|].
    split; [intros d x y; apply gf2x_mod_inv_calls_mul|].
    split; [apply gf2x_mod_inv_calls_mul_f|].
    split; [apply gf2x_mod_inv_calls_mul_t|].
    unfold gf2x_mod_inv_calls, sqr_in_place_calls. eexists. reflexivity.
  - exists (ctx_clear_first (ref_ops 773) 0). split.
    + apply ctx_clear_first_unaliased.
    + rewrite clear_first_result. discriminate.
Qed.

Lemma multiplications_alias_destination_witness :
  In (call_mul ptr_t ptr_g ptr_t) (gf2x_mod_inv_calls (params LEVEL_11)) /\
  ptr_g = ptr_g /\ ptr_t = ptr_t /\ (ptr_t = ptr_f \/ ptr_t = ptr_t).
Proof.
  destruct (proj1 multiplications_alias_destination LEVEL_11 N N 0 0
              (ctx_of_ops (ref_ops 773)) sample_a sample_state)
    as (_ & Hall & _ & Ht & _).
  split; [exact Ht | exact (Hall ptr_t ptr_g ptr_t Ht)].
Defined.

(** ** Which ring sizes are accepted *)

Lemma is_prime_sound n : is_prime n = true -> prime n.
Proof.
  unfold is_prime. intro H. apply andb_prop in H as [H1 Hdiv].
  apply Z.ltb_lt in H1. rewrite forallb_forall in Hdiv.
  assert (Hsmall : forall d, (2 <= d <= Z.sqrt n)%Z -> ~ (d | n)%Z).
  { intros d Hd Hdn.
    assert (Hin : In (Z.to_nat d) (seq 2 (Z.to_nat (Z.sqrt n) - 1)))
      by (apply in_seq; lia).
    apply Hdiv in Hin. rewrite Z2Nat.id in Hin by lia.
    apply Z.mod_divide in Hdn; [|lia].
    rewrite Hdn in Hin. discriminate. }
  apply prime_alt. split; [exact H1|].
  intros d Hd Hdn.
  destruct (Z.sqrt_spec n ltac:(lia)) as [Hlo Hhi].
  destruct (Z_le_gt_dec d (Z.sqrt n)) as [Hle|Hgt].
  - apply (Hsmall d); [lia | exact Hdn].
  - destruct Hdn as (e & He).
    apply (Hsmall e).
    + split; [nia|]. 
      destruct (Z_le_gt_dec e (Z.sqrt n)) as [|Hegt]; [assumption|].
      exfalso. nia.
    + exists d. lia.
Qed.

Lemma supported_iff r : supported r = true <-> In r supported_sizes.
Proof.
  unfold supported, supported_sizes, static_assertions_hold,
    r_too_large_for_inversion, gf2x_inv_r_doesnt_match_parameters.
  cbn [existsb all_levels params R_EXPECTED In].
  rewrite !orb_true_iff, !andb_true_iff, !negb_true_iff, !negb_false_iff,
    !N.ltb_lt, !N.eqb_eq.
  split.
  - intros H. repeat (destruct H as [H|H]); try discriminate;
      destruct H as [_ ->]; auto 12.
  - intro H. repeat (destruct H as [<-|H]); try contradiction.
    all: try (left; split; [lia | reflexivity]).
    all: try (right; left; split; [lia | reflexivity]).
    all: repeat (right; try (left; split; [lia | reflexivity])).
Qed.

Lemma supported_sizes_prime r :
  In r supported_sizes -> prime (Z.of_N r) /\ 3 <= r < 32768.
Proof.
  unfold supported_sizes. cbn [In]. intro H.
  repeat (destruct H as [<-|H]); try contradiction;
    (split; [apply is_prime_sound; reflexivity | lia]).
Qed.

(** C9, as the code has it.  No table is derived: a configuration is
    accepted by the static assertions exactly when its ring size is below
    32768 and is the one the level's tables were written for.  Every
    accepted ring size is one of the eleven hard-coded ones, hence prime
    and within [3, 32768); a ring size that is not prime, is at least
    32768 or is below 3 is therefore rejected. *)
Theorem static_assertions_accept (r : N) :
  (forall lvl, static_assertions_hold lvl r = true <-> r = R_BITS lvl) /\
  (supported r = true <-> In r supported_sizes) /\
  (~ prime (Z.of_N r) \/ 32768 <= r \/ r < 3 -> supported r = false).
Proof.
  split; [|split].
  - intro lvl.
    unfold static_assertions_hold, r_too_large_for_inversion,
      gf2x_inv_r_doesnt_match_parameters.
    rewrite andb_true_iff, !negb_true_iff, !negb_false_iff, N.ltb_lt,
      N.eqb_eq.
    destruct lvl; cbn [params R_EXPECTED R_BITS]; split;
      try (intros [_ ->]; reflexivity); intros ->; split; (lia || reflexivity).
  - apply supported_iff.
  - intro H. destruct (supported r) eqn:Hs; [|reflexivity].
    apply supported_iff, supported_sizes_prime in Hs.
    destruct Hs as (Hp & Hr). destruct H as [H|[H|H]];
      [contradiction | lia | lia].
Qed.

Lemma static_assertions_accept_witness : supported 32768 = false.
Proof.
  apply (proj2 (proj2 (static_assertions_accept 32768))).
  right. left. apply N.le_refl.
Defined.

(** C9, as the specification words it, fails at R = 7: it is prime and
    within the bounds, so none of the three reasons for rejection holds, and
    yet no level's assertions accept it. *)
Lemma seven_is_rejected :
  supported 7 = false /\
  ~ (~ prime (Z.of_N 7) \/ 32768 <= 7 \/ 7 < 3).
Proof.
  split; [reflexivity|].
  intros [Hp|[Hr|Hr]].
  - apply Hp. apply is_prime_sound. reflexivity.
  - lia.
  - lia.
Qed.


(** * Further properties of the code *)

(** ** What the chain computes on every ring element *)

Lemma pow2_ge_4 R : 2 < R -> 4 <= 2 ^ (R - 1).
Proof.
  intro HR. replace (R - 1) with (2 + (R - 3)) by lia.
  rewrite N.pow_add_r. pose proof (pow2_pos (R - 3)).
  change (2 ^ 2) with 4. lia.
Qed.

Section Regular.

Variables pad_r_t dbl_pad_r_t : Type.
Variable V : gf2x_ops pad_r_t dbl_pad_r_t.
Variable one : pad_r_t.
Variable wf : pad_r_t -> Prop.
Variable R : N.

Hypothesis HC : arith_contract R V one wf.
Hypothesis HR : 2 < R.
Hypothesis Hfermat : 2 ^ (R - 1) mod R = 1.

Local Infix "**" := (op_mul V) (at level 40, left associativity).
Local Notation "'pow'" := (gpow (op_mul V) one).
Local Notation "'n'" := (2 ^ (R - 1)).

Let HM : ring_monoid V one wf := contract_monoid HC.
Let Hcc : closed_commutative V wf := monoid_closed HM.

Lemma gpow_period x j :
  wf x -> pow x (1 + j * (n - 1)) = x.
Proof.
  intro Hx. pose proof (pow2_ge_4 R HR) as H4.
  induction j as [|j IH] using N.peano_ind.
  - rewrite N.mul_0_l, N.add_0_r. apply (gpow_1 _ _ _ _ _ HM x Hx).
  - replace (1 + N.succ j * (n - 1)) with (1 + j * (n - 1) + (n - 1)) by lia.
    rewrite (gpow_add _ _ _ _ _ HM) by exact Hx.
    rewrite IH.
    rewrite <- (gpow_1 _ _ _ _ _ HM x Hx) at 1.
    rewrite <- (gpow_add _ _ _ _ _ HM) by exact Hx.
    replace (1 + (n - 1)) with n by lia.
    apply (gpow_fermat _ _ V one wf R HC x); [lia | exact Hfermat | exact Hx].
Qed.

Lemma gpow_one_base k : pow one k = one.
Proof.
  induction k as [|k IH] using N.peano_ind; [reflexivity|].
  rewrite gpow_succ, IH. apply (mul_one_l HM), (one_wf HM).
Qed.

Lemma gpow_mul_base x y k :
  wf x -> wf y -> pow (x ** y) k = pow x k ** pow y k.
Proof.
  intros Hx Hy. induction k as [|k IH] using N.peano_ind.
  - rewrite !gpow_0. symmetry. apply (mul_one_l HM), (one_wf HM).
  - rewrite !gpow_succ, IH.
    assert (Hpx : wf (pow x k)) by now apply (gpow_wf _ _ _ _ _ HM).
    assert (Hpy : wf (pow y k)) by now apply (gpow_wf _ _ _ _ _ HM).
    rewrite <- (mul_assoc HM x y) by (try assumption; now apply (mul_wf Hcc)).
    rewrite (mul_assoc HM y) by assumption.
    rewrite (mul_comm Hcc y (pow x k)) by assumption.
    rewrite <- (mul_assoc HM (pow x k)) by assumption.
    rewrite (mul_assoc HM x) by (try assumption; now apply (mul_wf Hcc)).
    reflexivity.
Qed.

Lemma gpow_absorbing z k :
  wf z -> (forall x, wf x -> z ** x = z) -> pow z (N.succ k) = z.
Proof.
  intros Hz Habs. rewrite gpow_succ. apply Habs.
  now apply (gpow_wf _ _ _ _ _ HM).
Qed.

(** [c = a^(n-2)] is a generalised inverse of [a]. *)
Lemma gpow_regular a :
  wf a ->
  a ** pow a (n - 2) ** a = a /\
  pow a (n - 2) ** a ** pow a (n - 2) = pow a (n - 2).
Proof.
  intro Ha. pose proof (pow2_ge_4 R HR) as H4.
  assert (Hn : pow a n = a)
    by (apply (gpow_fermat _ _ V one wf R HC a); [lia | exact Hfermat | exact Ha]).
  split.
  - rewrite <- (gpow_1 _ _ _ _ _ HM a Ha) at 1 3.
    rewrite <- !(gpow_add _ _ _ _ _ HM) by exact Ha.
    replace (1 + (n - 2) + 1) with n by lia. exact Hn.
  - rewrite <- (gpow_1 _ _ _ _ _ HM a Ha) at 2.
    rewrite <- !(gpow_add _ _ _ _ _ HM) by exact Ha.
    replace (n - 2 + 1 + (n - 2)) with (n + (n - 3)) by lia.
    rewrite (gpow_add _ _ _ _ _ HM), Hn by exact Ha.
    rewrite <- (gpow_1 _ _ _ _ _ HM a Ha) at 1.
    rewrite <- (gpow_add _ _ _ _ _ HM) by exact Ha.
    f_equal. lia.
Qed.

Lemma gpow_involutive a :
  wf a -> pow (pow a (n - 2)) (n - 2) = a.
Proof.
  intro Ha. pose proof (pow2_ge_4 R HR) as H4.
  rewrite (gpow_mul _ _ _ _ _ HM) by exact Ha.
  replace ((n - 2) * (n - 2)) with (1 + (n - 3) * (n - 1)) by nia.
  now apply gpow_period.
Qed.

End Regular.

Lemma level_R_gt_2 lvl : 2 < R_BITS lvl.
Proof. now destruct lvl. Qed.

(** The value [gf2x_mod_inv] leaves in [*c], as a power of its input. *)
Lemma gf2x_mod_inv_value (lvl : level) (T D : Type) (zero : T) (dzero : D)
  (ctx : gf2x_ctx T D) (V : gf2x_ops T D) (one : T) (wf : T -> Prop)
  (a : T) (st : machine T D) :
  implements ctx V ->
  arith_contract (R_BITS lvl) V one wf ->
  wf a ->
  out_c (gf2x_mod_inv zero dzero (params lvl) ctx a st) =
    gpow (op_mul V) one a (2 ^ (R_BITS lvl - 1) - 2).
Proof.
  intros Himpl HC Ha.
  rewrite (gf2x_mod_inv_refines _ _ zero dzero ctx V wf Himpl
             (monoid_closed (contract_monoid HC)) (params lvl) a st Ha).
  rewrite (invert_pow _ _ V one wf (R_BITS lvl) HC (params lvl) a Ha
             (level_tables_ok lvl)).
  now rewrite level_exponent.
Qed.

Lemma small_element_wf : ref_wf 773 3.
Proof. reflexivity. Qed.

(** X1.  At every level and for every ring element [a], invertible or not,
    [gf2x_mod_inv] leaves the ring element [a^(2^(R-1) - 2)] in [*c]. *)
Theorem gf2x_mod_inv_is_power (lvl : level) (T D : Type) (zero : T)
  (dzero : D) (ctx : gf2x_ctx T D) (V : gf2x_ops T D) (one : T)
  (wf : T -> Prop) (a : T) (st : machine T D) :
  implements ctx V ->
  arith_contract (R_BITS lvl) V one wf ->
  wf a ->
  let c := out_c (gf2x_mod_inv zero dzero (params lvl) ctx a st) in
  wf c /\ c = gpow (op_mul V) one a (2 ^ (R_BITS lvl - 1) - 2).
Proof.
  intros Himpl HC Ha c. subst c.
  rewrite (gf2x_mod_inv_value lvl T D zero dzero ctx V one wf a st Himpl HC Ha).
  split; [|reflexivity].
  now apply (gpow_wf _ _ _ _ _ (contract_monoid HC)).
Qed.

Lemma gf2x_mod_inv_is_power_witness :
  let c := out_c (gf2x_mod_inv 0 0 (params LEVEL_11)
                    (ctx_of_ops (ref_ops 773)) 3 sample_state) in
  ref_wf 773 c /\
  c = gpow (op_mul (ref_ops 773)) 1 3 (2 ^ (R_BITS LEVEL_11 - 1) - 2).
Proof.
  exact (gf2x_mod_inv_is_power LEVEL_11 N N 0 0 (ctx_of_ops (ref_ops 773))
           (ref_ops 773) 1 (ref_wf 773) 3 sample_state
           (ctx_of_ops_implements N N (ref_ops 773))
           (ref_arith_contract 773 eq_refl eq_refl)
           small_element_wf).
Defined.

(** X2.  For every ring element [a], invertible or not, the output [c] of
    [gf2x_mod_inv] is a generalised inverse: [a*c*a = a] and [c*a*c = c]. *)
Theorem gf2x_mod_inv_generalised_inverse (lvl : level) (T D : Type)
  (zero : T) (dzero : D) (ctx : gf2x_ctx T D) (V : gf2x_ops T D) (one : T)
  (wf : T -> Prop) (a : T) (st : machine T D) :
  implements ctx V ->
  arith_contract (R_BITS lvl) V one wf ->
  wf a ->
  let c := out_c (gf2x_mod_inv zero dzero (params lvl) ctx a st) in
  op_mul V (op_mul V a c) a = a /\
  op_mul V (op_mul V c a) c = c.
Proof.
  intros Himpl HC Ha c. subst c.
  rewrite (gf2x_mod_inv_value lvl T D zero dzero ctx V one wf a st Himpl HC Ha).
  apply (gpow_regular T D V one wf (R_BITS lvl) HC (level_R_gt_2 lvl)
           (level_fermat lvl) a Ha).
Qed.

Lemma gf2x_mod_inv_generalised_inverse_witness :
  let c := out_c (gf2x_mod_inv 0 0 (params LEVEL_11)
                    (ctx_of_ops (ref_ops 773)) 3 sample_state) in
  op_mul (ref_ops 773) (op_mul (ref_ops 773) 3 c) 3 = 3 /\
  op_mul (ref_ops 773) (op_mul (ref_ops 773) c 3) c = c.
Proof.
  exact (gf2x_mod_inv_generalised_inverse LEVEL_11 N N 0 0
           (ctx_of_ops (ref_ops 773)) (ref_ops 773) 1 (ref_wf 773) 3
           sample_state
           (ctx_of_ops_implements N N (ref_ops 773))
           (ref_arith_contract 773 eq_refl eq_refl)
           small_element_wf).
Defined.

(** X3.  Applying [gf2x_mod_inv] twice gives back every ring element, not
    only the invertible ones. *)
Theorem gf2x_mod_inv_involution (lvl : level) (T D : Type) (zero : T)
  (dzero : D) (ctx : gf2x_ctx T D) (V : gf2x_ops T D) (one : T)
  (wf : T -> Prop) (a : T) (st st' : machine T D) :
  implements ctx V ->
  arith_contract (R_BITS lvl) V one wf ->
  wf a ->
  out_c (gf2x_mod_inv zero dzero (params lvl) ctx
           (out_c (gf2x_mod_inv zero dzero (params lvl) ctx a st)) st') = a.
Proof.
  intros Himpl HC Ha.
  rewrite (gf2x_mod_inv_value lvl T D zero dzero ctx V one wf a st Himpl HC Ha).
  rewrite (gf2x_mod_inv_value lvl T D zero dzero ctx V one wf _ st' Himpl HC)
    by now apply (gpow_wf _ _ _ _ _ (contract_monoid HC)).
  apply (gpow_involutive T D V one wf (R_BITS lvl) HC (level_R_gt_2 lvl)
           (level_fermat lvl) a Ha).
Qed.

Lemma gf2x_mod_inv_involution_witness :
  out_c (gf2x_mod_inv 0 0 (params LEVEL_11) (ctx_of_ops (ref_ops 773))
           (out_c (gf2x_mod_inv 0 0 (params LEVEL_11)
                     (ctx_of_ops (ref_ops 773)) 3 sample_state))
           sample_state) = 3.
Proof.
  exact (gf2x_mod_inv_involution LEVEL_11 N N 0 0
           (ctx_of_ops (ref_ops 773)) (ref_ops 773) 1 (ref_wf 773) 3
           sample_state sample_state
           (ctx_of_ops_implements N N (ref_ops 773))
           (ref_arith_contract 773 eq_refl eq_refl)
           small_element_wf).
Defined.

(** X4.  [gf2x_mod_inv] maps the constant polynomial 1 to itself. *)
Theorem gf2x_mod_inv_one (lvl : level) (T D : Type) (zero : T)
  (dzero : D) (ctx : gf2x_ctx T D) (V : gf2x_ops T D) (one : T)
  (wf : T -> Prop) (st : machine T D) :
  implements ctx V ->
  arith_contract (R_BITS lvl) V one wf ->
  out_c (gf2x_mod_inv zero dzero (params lvl) ctx one st) = one.
Proof.
  intros Himpl HC.
  rewrite (gf2x_mod_inv_value lvl T D zero dzero ctx V one wf one st Himpl HC
             (one_wf (contract_monoid HC))).
  apply (gpow_one_base T D V one wf (R_BITS lvl) HC).
Qed.

Lemma gf2x_mod_inv_one_witness :
  out_c (gf2x_mod_inv 0 0 (params LEVEL_11) (ctx_of_ops (ref_ops 773))
           1 sample_state) = 1.
Proof.
  exact (gf2x_mod_inv_one LEVEL_11 N N 0 0
           (ctx_of_ops (ref_ops 773)) (ref_ops 773) 1 (ref_wf 773)
           sample_state
           (ctx_of_ops_implements N N (ref_ops 773))
           (ref_arith_contract 773 eq_refl eq_refl)).
Defined.

(** X5.  [gf2x_mod_inv] of a product is the product of the outputs, for
    all ring elements. *)
Theorem gf2x_mod_inv_product (lvl : level) (T D : Type) (zero : T)
  (dzero : D) (ctx : gf2x_ctx T D) (V : gf2x_ops T D) (one : T)
  (wf : T -> Prop) (a b : T) (st : machine T D) :
  implements ctx V ->
  arith_contract (R_BITS lvl) V one wf ->
  wf a -> wf b ->
  out_c (gf2x_mod_inv zero dzero (params lvl) ctx (op_mul V a b) st) =
  op_mul V (out_c (gf2x_mod_inv zero dzero (params lvl) ctx a st))
           (out_c (gf2x_mod_inv zero dzero (params lvl) ctx b st)).
Proof.
  intros Himpl HC Ha Hb.
  rewrite !(gf2x_mod_inv_value lvl T D zero dzero ctx V one wf _ st Himpl HC)
    by (try assumption;
        now apply (mul_wf (monoid_closed (contract_monoid HC)))).
  apply (gpow_mul_base T D V one wf (R_BITS lvl) HC a b _ Ha Hb).
Qed.

Lemma gf2x_mod_inv_product_witness :
  out_c (gf2x_mod_inv 0 0 (params LEVEL_11) (ctx_of_ops (ref_ops 773))
           (op_mul (ref_ops 773) sample_a 3) sample_state) =
  op_mul (ref_ops 773)
    (out_c (gf2x_mod_inv 0 0 (params LEVEL_11) (ctx_of_ops (ref_ops 773))
              sample_a sample_state))
    (out_c (gf2x_mod_inv 0 0 (params LEVEL_11) (ctx_of_ops (ref_ops 773))
              3 sample_state)).
Proof.
  exact (gf2x_mod_inv_product LEVEL_11 N N 0 0
           (ctx_of_ops (ref_ops 773)) (ref_ops 773) 1 (ref_wf 773)
           sample_a 3 sample_state
           (ctx_of_ops_implements N N (ref_ops 773))
           (ref_arith_contract 773 eq_refl eq_refl)
           sample_a_wf small_element_wf).
Defined.

(** X6.  A ring element that absorbs under multiplication, as the zero
    polynomial does, is mapped to itself: the call on a non-invertible
    input returns a definite value. *)
Theorem gf2x_mod_inv_absorbing (lvl : level) (T D : Type) (zero : T)
  (dzero : D) (ctx : gf2x_ctx T D) (V : gf2x_ops T D) (one : T)
  (wf : T -> Prop) (z : T) (st : machine T D) :
  implements ctx V ->
  arith_contract (R_BITS lvl) V one wf ->
  wf z ->
  (forall x, wf x -> op_mul V z x = z) ->
  out_c (gf2x_mod_inv zero dzero (params lvl) ctx z st) = z.
Proof.
  intros Himpl HC Hz Habs.
  rewrite (gf2x_mod_inv_value lvl T D zero dzero ctx V one wf z st Himpl HC Hz).
  pose proof (pow2_ge_4 (R_BITS lvl) (level_R_gt_2 lvl)) as H4.
  replace (2 ^ (R_BITS lvl - 1) - 2)
    with (N.succ (2 ^ (R_BITS lvl - 1) - 3)) by lia.
  apply (gpow_absorbing T D V one wf (R_BITS lvl) HC z _ Hz Habs).
Qed.

Lemma ref_zero_absorbing : forall x, ref_wf 773 x -> op_mul (ref_ops 773) 0 x = 0.
Proof. intros x _. reflexivity. Qed.

Lemma zero_wf : ref_wf 773 0.
Proof. reflexivity. Qed.

Lemma gf2x_mod_inv_absorbing_witness :
  out_c (gf2x_mod_inv 0 0 (params LEVEL_11) (ctx_of_ops (ref_ops 773))
           0 sample_state) = 0.
Proof.
  exact (gf2x_mod_inv_absorbing LEVEL_11 N N 0 0
           (ctx_of_ops (ref_ops 773)) (ref_ops 773) 1 (ref_wf 773) 0
           sample_state
           (ctx_of_ops_implements N N (ref_ops 773))
           (ref_arith_contract 773 eq_refl eq_refl)
           zero_wf ref_zero_absorbing).
Defined.

(** ** The calls, counted and classified *)

Lemma count_calls_app f tr1 tr2 :
  count_calls f (tr1 ++ tr2) = count_calls f tr1 + count_calls f tr2.
Proof.
  unfold count_calls. now rewrite filter_app, length_app, Nat2N.inj_add.
Qed.

Lemma level_mul_count lvl :
  count_calls is_call_mul (gf2x_mod_inv_calls (params lvl)) =
  N.log2 (R_BITS lvl - 2) + weight (R_BITS lvl - 2) - 1.
Proof. now destruct lvl. Qed.

(** X7.  One call of [gf2x_mod_inv] makes
    [floor(log2(R-2)) + wt(R-2) - 1] multiplications, whatever the input
    and the context. *)
Theorem gf2x_mod_inv_mul_count (lvl : level) (T D : Type) (zero : T)
  (dzero : D) (ctx : gf2x_ctx T D) (a : T) (st : machine T D) :
  count_calls is_call_mul
    (calls (gf2x_mod_inv zero dzero (params lvl) ctx a st)) =
  count_calls is_call_mul (calls st) +
  (N.log2 (R_BITS lvl - 2) + weight (R_BITS lvl - 2) - 1).
Proof.
  rewrite (issues_gf2x_mod_inv T D zero dzero ctx (params lvl) a st).
  now rewrite count_calls_app, level_mul_count.
Qed.

Lemma exponentiation_calls_k_sqr dst src k l d s l' :
  In (call_k_sqr d s l') (exponentiation_calls dst src k l) ->
  K_SQR_THR < k /\ d = dst /\ s = src /\ l' = l.
Proof.
  unfold exponentiation_calls. destruct (N.leb_spec k K_SQR_THR) as [Hk|Hk].
  - induction (N.to_nat k) as [|n IH]; cbn [repeat concat]; [intros []|].
    rewrite in_app_iff. intros [H|H]; [|now apply IH].
    cbn in H. destruct H as [H|[H|[]]]; discriminate.
  - cbn. intros [H|[]]. inversion H. auto.
Qed.

Lemma exponentiation_calls_sqr dst src k l b s :
  In (call_sqr b s) (exponentiation_calls dst src k l) -> s = dst.
Proof.
  unfold exponentiation_calls. destruct (k <=? K_SQR_THR).
  - induction (N.to_nat k) as [|n IH]; cbn [repeat concat]; [intros []|].
    rewrite in_app_iff. intros [H|H]; [|now apply IH].
    cbn in H. destruct H as [H|[H|[]]]; now inversion H.
  - cbn. intros [H|[]]. discriminate.
Qed.

Lemma exponentiation_calls_red dst src k l d b :
  In (call_red d b) (exponentiation_calls dst src k l) -> d = dst.
Proof.
  unfold exponentiation_calls. destruct (k <=? K_SQR_THR).
  - induction (N.to_nat k) as [|n IH]; cbn [repeat concat]; [intros []|].
    rewrite in_app_iff. intros [H|H]; [|now apply IH].
    cbn in H. destruct H as [H|[H|[]]]; now inversion H.
  - cbn. intros [H|[]]. discriminate.
Qed.

Lemma inverse_entry_bounds r k l :
  1 < r -> (l <? r) && is_inv_pow2 r k l = true ->
  0 < l < r /\ (2 ^ k mod r * l) mod r = 1.
Proof.
  intros Hr H. apply andb_prop in H as [Hl Hinv].
  apply N.ltb_lt in Hl. apply is_inv_pow2_spec in Hinv.
  repeat split; try assumption.
  destruct (N.eq_dec l 0) as [->|]; [|lia].
  rewrite N.mul_0_r, N.Div0.mod_0_l in Hinv. discriminate.
Qed.

Lemma level_uses_k_sqr lvl :
  In (call_k_sqr ptr_g ptr_f (idx (EXP0_L_VALS (params lvl)) 7))
     (gf2x_mod_inv_calls (params lvl)).
Proof.
  unfold gf2x_mod_inv_calls. rewrite in_app_iff, in_flat_map. left.
  exists 8%nat. split.
  - apply in_seq. destruct lvl; cbn; lia.
  - unfold inv_loop_body_calls. rewrite in_app_iff. left.
    destruct lvl; now left.
Qed.

Lemma calls_k_sqr_origin p d s l :
  In (call_k_sqr d s l) (gf2x_mod_inv_calls p) ->
  d = ptr_g /\ s = ptr_f /\
  exists j, In j (seq 1 (N.to_nat (MAX_I p) - 1)) /\
    ((K_SQR_THR < idx (EXP0_K_VALS p) (N.of_nat j - 1) /\
      l = idx (EXP0_L_VALS p) (N.of_nat j - 1)) \/
     (K_SQR_THR < idx (EXP1_K_VALS p) (N.of_nat j) /\
      l = idx (EXP1_L_VALS p) (N.of_nat j))).
Proof.
  unfold gf2x_mod_inv_calls. rewrite in_app_iff, in_flat_map.
  intros [(j & Hj & H)|H];
    [|cbn in H; destruct H as [H|[H|[]]]; discriminate].
  unfold inv_loop_body_calls in H. rewrite !in_app_iff in H.
  destruct H as [H|[H|H]].
  - apply exponentiation_calls_k_sqr in H. destruct H as (Hk & -> & -> & ->).
    repeat split. exists j. split; [exact Hj | left; now split].
  - destruct H as [H|[]]. discriminate.
  - destruct (negb (idx (EXP1_K_VALS p) (N.of_nat j) =? 0)); [|destruct H].
    rewrite in_app_iff in H. destruct H as [H|[H|[]]]; [|discriminate].
    apply exponentiation_calls_k_sqr in H. destruct H as (Hk & -> & -> & ->).
    repeat split. exists j. split; [exact Hj | right; now split].
Qed.

Lemma calls_sqr_red_operand p :
  (forall b s, In (call_sqr b s) (gf2x_mod_inv_calls p) ->
               s = ptr_g \/ s = ptr_t) /\
  (forall d b, In (call_red d b) (gf2x_mod_inv_calls p) ->
               d = ptr_g \/ d = ptr_t).
Proof.
  unfold gf2x_mod_inv_calls.
  split; intros x y; rewrite in_app_iff, in_flat_map;
    (intros [(j & Hj & H)|H];
     [|cbn in H; destruct H as [H|[H|[]]]; inversion H; now right]);
    unfold inv_loop_body_calls in H; rewrite !in_app_iff in H;
    (destruct H as [H|[H|H]];
     [ left
     | destruct H as [H|[]]; discriminate
     | destruct (negb (idx (EXP1_K_VALS p) (N.of_nat j) =? 0));
       [|destruct H];
       rewrite in_app_iff in H; destruct H as [H|[H|[]]]; [left|discriminate]
     ]).
  - now apply exponentiation_calls_sqr in H.
  - now apply exponentiation_calls_sqr in H.
  - now apply exponentiation_calls_red in H.
  - now apply exponentiation_calls_red in H.
Qed.

Lemma call_list_shapes (lvl : level) :
  let tr := gf2x_mod_inv_calls (params lvl) in
  let R := R_BITS lvl in
  (forall d s l, In (call_k_sqr d s l) tr ->
     d = ptr_g /\ s = ptr_f /\ 0 < l < R /\
     exists k, K_SQR_THR < k /\ (2 ^ k mod R * l) mod R = 1) /\
  (forall b s, In (call_sqr b s) tr -> s = ptr_g \/ s = ptr_t) /\
  (forall d b, In (call_red d b) tr -> d = ptr_g \/ d = ptr_t) /\
  (exists l, In (call_k_sqr ptr_g ptr_f l) tr).
Proof.
  intros tr R. subst tr R.
  split; [|split; [|split]].
  - intros d s l H.
    apply calls_k_sqr_origin in H. destruct H as (-> & -> & j & Hj & H).
    split; [reflexivity|]. split; [reflexivity|].
    pose proof (level_tables_ok lvl) as Hok.
    unfold chain_tables_ok in Hok. rewrite forallb_forall in Hok.
    apply Hok in Hj. unfold step_tables_ok in Hj.
    apply andb_prop in Hj as [H0 H1].
    pose proof (level_R_gt_1 lvl) as HR.
    destruct H as [(Hk & ->)|(Hk & ->)].
    + pose proof Hk as Hk'. apply N.leb_gt in Hk'. rewrite Hk' in H0.
      cbn [orb] in H0.
      apply (inverse_entry_bounds _ _ _ HR) in H0. destruct H0 as (Hb & Hi).
      split; [exact Hb|]. eexists. split; [exact Hk | exact Hi].
    + pose proof Hk as Hk'. apply N.leb_gt in Hk'. rewrite Hk' in H1.
      replace (idx (EXP1_K_VALS (params lvl)) (N.of_nat j) =? 0) with false
        in H1 by (symmetry; apply N.eqb_neq; unfold K_SQR_THR in Hk; lia).
      cbn [orb] in H1.
      apply (inverse_entry_bounds _ _ _ HR) in H1. destruct H1 as (Hb & Hi).
      split; [exact Hb|]. eexists. split; [exact Hk | exact Hi].
  - apply (proj1 (calls_sqr_red_operand (params lvl))).
  - apply (proj2 (calls_sqr_red_operand (params lvl))).
  - eexists. apply level_uses_k_sqr.
Qed.

(** X8.  In a call of [gf2x_mod_inv] at any level, on any input and with
    any context, [k_sqr] is only ever called from [f] into [g], never in
    place, and only with a parameter [0 < l < R] that is the inverse of
    [2^k] for an exponent [k] above the threshold; squarings and reductions
    only ever work on [g] or [t], so that [f] is written by multiplications
    alone.  A [k_sqr] call does occur. *)
Theorem gf2x_mod_inv_call_shapes (lvl : level) (T D : Type) (zero : T)
  (dzero : D) (ctx : gf2x_ctx T D) (a : T) (st : machine T D) :
  calls st = [] ->
  let tr := calls (gf2x_mod_inv zero dzero (params lvl) ctx a st) in
  let R := R_BITS lvl in
  (forall d s l, In (call_k_sqr d s l) tr ->
     d = ptr_g /\ s = ptr_f /\ 0 < l < R /\
     exists k, K_SQR_THR < k /\ (2 ^ k mod R * l) mod R = 1) /\
  (forall b s, In (call_sqr b s) tr -> s = ptr_g \/ s = ptr_t) /\
  (forall d b, In (call_red d b) tr -> d = ptr_g \/ d = ptr_t) /\
  (exists l, In (call_k_sqr ptr_g ptr_f l) tr).
Proof.
  intros Hfresh tr R. subst tr R.
  rewrite (issues_gf2x_mod_inv T D zero dzero ctx (params lvl) a st), Hfresh.
  cbn [app]. apply (call_list_shapes lvl).
Qed.

Lemma gf2x_mod_inv_call_shapes_witness :
  let tr := calls (gf2x_mod_inv 0 0 (params LEVEL_11)
                     (ctx_of_ops (ref_ops 773)) sample_a sample_state) in
  let R := R_BITS LEVEL_11 in
  (forall d s l, In (call_k_sqr d s l) tr ->
     d = ptr_g /\ s = ptr_f /\ 0 < l < R /\
     exists k, K_SQR_THR < k /\ (2 ^ k mod R * l) mod R = 1) /\
  (forall b s, In (call_sqr b s) tr -> s = ptr_g \/ s = ptr_t) /\
  (forall d b, In (call_red d b) tr -> d = ptr_g \/ d = ptr_t) /\
  (exists l, In (call_k_sqr ptr_g ptr_f l) tr).
Proof.
  exact (gf2x_mod_inv_call_shapes LEVEL_11 N N 0 0
           (ctx_of_ops (ref_ops 773)) sample_a sample_state eq_refl).
Defined.

(** ** What a call depends on, and what it leaves behind *)

Section Frames.

Variables pad_r_t dbl_pad_r_t : Type.
Variable pad_zero : pad_r_t.
Variable dbl_zero : dbl_pad_r_t.
Variable ctx : gf2x_ctx pad_r_t dbl_pad_r_t.

Let machine := machine pad_r_t dbl_pad_r_t.
Let stmt := stmt pad_r_t dbl_pad_r_t.








End Frames.


Lemma assign_self (T D : Type) (c : pad_ptr) (st : machine T D) :
  assign c c st = st.
Proof. destruct st as [[f g t b] o cs]. now destruct c. Qed.

(** X10.  Squaring [k1 + k2] times is squaring [k1] times and then, in
    place, [k2] more times - state, buffer and calls included, for any
    context; and squaring zero times in place changes nothing. *)
Theorem repeated_squaring_add (T D : Type) (ctx : gf2x_ctx T D)
  (c a : pad_ptr) (k1 k2 : N) (b : dbl_ptr) (st : machine T D) :
  repeated_squaring c a (k1 + k2) b ctx st =
    repeated_squaring c c k2 b ctx (repeated_squaring c a k1 b ctx st) /\
  repeated_squaring c c 0 b ctx st = st.
Proof.
  unfold repeated_squaring, then_, for_loop.
  rewrite !N.sub_0_r, !for_count_const, assign_self.
  split; [|apply assign_self].
  rewrite N2Nat.inj_add, Nat.add_comm. apply Nat.iter_add.
Qed.

Lemma sqr_in_place_frame (T D : Type) (ctx : gf2x_ctx T D)
  (V : gf2x_ops T D) (a : pad_ptr) (b : dbl_ptr) (st : machine T D) :
  implements ctx V ->
  locals (gf2x_mod_sqr_in_place a b ctx st) =
  store a (op_red V (op_sqr V (load a (locals st))))
        (store_dbl b (op_sqr V (load a (locals st))) (locals st)).
Proof.
  intro Himpl.
  unfold gf2x_mod_sqr_in_place, then_, call_ctx_sqr, call_ctx_red, on_frame.
  cbn [locals].
  rewrite (impl_red Himpl), (impl_sqr Himpl). cbn [red sqr ctx_of_ops].
  now rewrite load_dbl_store_dbl.
Qed.

(** X11.  When the last statement of the body has run and the deferred
    handlers have not yet, the frame still holds the result: [t] is equal to
    what was copied to [*c], and [sec_buf] holds the unreduced square whose
    reduction is that value. *)
Theorem body_leaves_result_in_frame (p : inv_params) (T D : Type)
  (zero : T) (dzero : D) (ctx : gf2x_ctx T D) (V : gf2x_ops T D) (a : T)
  (st : machine T D) :
  implements ctx V ->
  let st' := gf2x_mod_inv_body zero dzero p ctx a st in
  var_t (locals st') = out_c st' /\
  op_red V (var_sec_buf (locals st')) = out_c st' /\
  out_c (gf2x_mod_inv zero dzero p ctx a st) = out_c st'.
Proof.
  intros Himpl st'. subst st'.
  unfold gf2x_mod_inv, gf2x_mod_inv_body, then_, assign_out.
  cbn [locals out_c load leave_frame].
  split; [reflexivity|]. split; [|reflexivity].
  rewrite (sqr_in_place_frame T D ctx V ptr_t ptr_sec_buf _ Himpl).
  reflexivity.
Qed.

Lemma body_leaves_result_in_frame_witness :
  let st' := gf2x_mod_inv_body 0 0 (params LEVEL_11)
               (ctx_of_ops (ref_ops 773)) sample_a sample_state in
  var_t (locals st') = out_c st' /\
  op_red (ref_ops 773) (var_sec_buf (locals st')) = out_c st' /\
  out_c (gf2x_mod_inv 0 0 (params LEVEL_11) (ctx_of_ops (ref_ops 773))
           sample_a sample_state) = out_c st'.
Proof.
  exact (body_leaves_result_in_frame (params LEVEL_11) N N 0 0
           (ctx_of_ops (ref_ops 773)) (ref_ops 773) sample_a sample_state
           (ctx_of_ops_implements N N (ref_ops 773))).
Defined.

(** ** The sizes of bike_defs.h *)

Lemma ceil_div_meaning :
  BikeDefs.defs_h_meaning ceil_div low_bits 8.
Proof.
  unfold BikeDefs.defs_h_meaning, ceil_div, low_bits.
  split; [|split; [|reflexivity]].
  - intros x y Hy.
    pose proof (N.div_mod (x + y - 1) y ltac:(lia)) as Hdm.
    pose proof (N.mod_lt (x + y - 1) y ltac:(lia)) as Hlt.
    rewrite (N.mul_comm ((x + y - 1) / y) y).
    set (q := (x + y - 1) / y) in *. set (r := (x + y - 1) mod y) in *.
    clearbody q r. lia.
  - intro n. rewrite N.ones_equiv. pose proof (pow2_pos n). lia.
Qed.

Lemma level_block_bits lvl :
  BikeDefs.BLOCK_BITS lvl = 2 ^ (N.log2 (R_BITS lvl) + 1) /\
  R_BITS lvl < BikeDefs.BLOCK_BITS lvl < 2 * R_BITS lvl /\
  BikeDefs.BLOCK_BITS lvl mod 64 = 0.
Proof. destruct lvl; repeat split. Qed.

Lemma one_block (DIVIDE_AND_CEIL : N -> N -> N) (MASK : N -> N)
  (BYTES_IN_QWORD : N) (lvl : level) :
  BikeDefs.defs_h_meaning DIVIDE_AND_CEIL MASK BYTES_IN_QWORD ->
  BikeDefs.R_BLOCKS DIVIDE_AND_CEIL lvl = 1 /\
  BikeDefs.R_PADDED DIVIDE_AND_CEIL lvl = BikeDefs.BLOCK_BITS lvl /\
  BikeDefs.R_PADDED_BYTES DIVIDE_AND_CEIL lvl * 8 =
    BikeDefs.BLOCK_BITS lvl /\
  BikeDefs.R_PADDED_QWORDS DIVIDE_AND_CEIL lvl * 64 =
    BikeDefs.BLOCK_BITS lvl.
Proof.
  intros (Hceil & _ & _).
  destruct (level_block_bits lvl) as (Hpow & (Hlo & Hhi) & H64).
  assert (Hblocks : BikeDefs.R_BLOCKS DIVIDE_AND_CEIL lvl = 1).
  { unfold BikeDefs.R_BLOCKS.
    pose proof (Hceil (R_BITS lvl) (BikeDefs.BLOCK_BITS lvl) ltac:(lia)).
    pose proof (level_R_gt_1 lvl). nia. }
  assert (Hpad : BikeDefs.R_PADDED DIVIDE_AND_CEIL lvl =
                 BikeDefs.BLOCK_BITS lvl).
  { unfold BikeDefs.R_PADDED. rewrite Hblocks. lia. }
  unfold BikeDefs.R_PADDED_BYTES, BikeDefs.R_PADDED_QWORDS.
  rewrite Hpad.
  repeat split; try assumption.
  - pose proof (N.div_mod (BikeDefs.BLOCK_BITS lvl) 8 ltac:(lia)) as Hdm.
    assert (BikeDefs.BLOCK_BITS lvl mod 8 = 0) by now destruct lvl.
    lia.
  - pose proof (N.div_mod (BikeDefs.BLOCK_BITS lvl) 64 ltac:(lia)) as Hdm.
    lia.
Qed.

(** X12.  At every level [BLOCK_BITS] is the least power of two above
    [R_BITS]; so a ring element takes one block, [R_PADDED] is that block,
    [R_BITS < R_PADDED < 2 * R_BITS], and the padded size is a whole number
    of bytes and of quadwords. *)
Theorem padded_size_is_one_block (DIVIDE_AND_CEIL : N -> N -> N)
  (MASK : N -> N) (BYTES_IN_QWORD : N) (lvl : level) :
  BikeDefs.defs_h_meaning DIVIDE_AND_CEIL MASK BYTES_IN_QWORD ->
  BikeDefs.BLOCK_BITS lvl = 2 ^ (N.log2 (R_BITS lvl) + 1) /\
  BikeDefs.R_BLOCKS DIVIDE_AND_CEIL lvl = 1 /\
  BikeDefs.R_PADDED DIVIDE_AND_CEIL lvl = BikeDefs.BLOCK_BITS lvl /\
  R_BITS lvl < BikeDefs.R_PADDED DIVIDE_AND_CEIL lvl < 2 * R_BITS lvl /\
  BikeDefs.R_PADDED_BYTES DIVIDE_AND_CEIL lvl * 8 =
    BikeDefs.R_PADDED DIVIDE_AND_CEIL lvl /\
  BikeDefs.R_PADDED_QWORDS DIVIDE_AND_CEIL lvl * 64 =
    BikeDefs.R_PADDED DIVIDE_AND_CEIL lvl.
Proof.
  intros Hdefs.
  destruct (one_block DIVIDE_AND_CEIL MASK BYTES_IN_QWORD lvl Hdefs)
    as (Hb & Hp & Hpb & Hpq).
  destruct (level_block_bits lvl) as (Hpow & Hbounds & _).
  rewrite Hp. repeat split; try assumption; apply Hbounds.
Qed.

Lemma padded_size_is_one_block_witness :
  BikeDefs.BLOCK_BITS LEVEL_1 = 2 ^ (N.log2 (R_BITS LEVEL_1) + 1) /\
  BikeDefs.R_BLOCKS ceil_div LEVEL_1 = 1 /\
  BikeDefs.R_PADDED ceil_div LEVEL_1 = BikeDefs.BLOCK_BITS LEVEL_1 /\
  R_BITS LEVEL_1 < BikeDefs.R_PADDED ceil_div LEVEL_1 < 2 * R_BITS LEVEL_1 /\
  BikeDefs.R_PADDED_BYTES ceil_div LEVEL_1 * 8 =
    BikeDefs.R_PADDED ceil_div LEVEL_1 /\
  BikeDefs.R_PADDED_QWORDS ceil_div LEVEL_1 * 64 =
    BikeDefs.R_PADDED ceil_div LEVEL_1.
Proof.
  exact (padded_size_is_one_block ceil_div low_bits 8 LEVEL_1
           ceil_div_meaning).
Defined.

Lemma level_leads lvl :
  0 < R_BITS lvl mod 8 < 8 /\ 0 < R_BITS lvl mod 64 < 64.
Proof. destruct lvl; repeat split. Qed.

(** X13.  At every level the last byte and the last quadword of a ring
    element are partly used: the lead counts are not zero, the masks are
    [2^lead - 1] and so not empty, [R_BYTES] bytes hold [R_BITS] bits with
    [LAST_R_BYTE_TRAIL] bits to spare and [R_QWORDS] quadwords with
    [LAST_R_QWORD_TRAIL] to spare, and both counts fit in the padded
    size. *)
Theorem last_byte_and_qword (DIVIDE_AND_CEIL : N -> N -> N)
  (MASK : N -> N) (BYTES_IN_QWORD : N) (lvl : level) :
  BikeDefs.defs_h_meaning DIVIDE_AND_CEIL MASK BYTES_IN_QWORD ->
  0 < BikeDefs.LAST_R_BYTE_LEAD MASK lvl < 8 /\
  BikeDefs.R_BYTES DIVIDE_AND_CEIL lvl * 8 =
    R_BITS lvl + BikeDefs.LAST_R_BYTE_TRAIL MASK lvl /\
  BikeDefs.LAST_R_BYTE_MASK MASK lvl =
    2 ^ BikeDefs.LAST_R_BYTE_LEAD MASK lvl - 1 /\
  0 < BikeDefs.LAST_R_QWORD_LEAD MASK lvl < 64 /\
  BikeDefs.R_QWORDS DIVIDE_AND_CEIL BYTES_IN_QWORD lvl * 64 =
    R_BITS lvl + BikeDefs.LAST_R_QWORD_TRAIL MASK lvl /\
  BikeDefs.LAST_R_QWORD_MASK MASK lvl =
    2 ^ BikeDefs.LAST_R_QWORD_LEAD MASK lvl - 1 /\
  BikeDefs.R_BYTES DIVIDE_AND_CEIL lvl <=
    BikeDefs.R_PADDED_BYTES DIVIDE_AND_CEIL lvl /\
  BikeDefs.R_QWORDS DIVIDE_AND_CEIL BYTES_IN_QWORD lvl <=
    BikeDefs.R_PADDED_QWORDS DIVIDE_AND_CEIL lvl.
Proof.
  intros Hdefs.
  destruct (one_block DIVIDE_AND_CEIL MASK BYTES_IN_QWORD lvl Hdefs)
    as (_ & _ & Hpb & Hpq).
  destruct (level_block_bits lvl) as (_ & (Hlo & _) & _).
  destruct Hdefs as (Hceil & Hmask & Hq).
  destruct (level_leads lvl) as (Hb & Hw).
  unfold BikeDefs.LAST_R_BYTE_MASK, BikeDefs.LAST_R_QWORD_MASK,
    BikeDefs.LAST_R_BYTE_TRAIL, BikeDefs.LAST_R_QWORD_TRAIL,
    BikeDefs.LAST_R_BYTE_LEAD, BikeDefs.LAST_R_QWORD_LEAD,
    BikeDefs.R_BYTES, BikeDefs.R_QWORDS in *.
  rewrite !Hmask, !N.land_ones, !N.ones_equiv, Hq.
  change (2 ^ 3) with 8. change (2 ^ 6) with 64. change (8 * 8) with 64.
  pose proof (Hceil (R_BITS lvl) 8 ltac:(lia)) as Hc8.
  pose proof (Hceil (R_BITS lvl) 64 ltac:(lia)) as Hc64.
  pose proof (N.div_mod (R_BITS lvl) 8 ltac:(lia)) as Hd8.
  pose proof (N.div_mod (R_BITS lvl) 64 ltac:(lia)) as Hd64.
  pose proof (pow2_pos (R_BITS lvl mod 8)).
  pose proof (pow2_pos (R_BITS lvl mod 64)).
  repeat split; try lia.
Qed.

Lemma last_byte_and_qword_witness :
  0 < BikeDefs.LAST_R_BYTE_LEAD low_bits LEVEL_1 < 8 /\
  BikeDefs.R_BYTES ceil_div LEVEL_1 * 8 =
    R_BITS LEVEL_1 + BikeDefs.LAST_R_BYTE_TRAIL low_bits LEVEL_1 /\
  BikeDefs.LAST_R_BYTE_MASK low_bits LEVEL_1 =
    2 ^ BikeDefs.LAST_R_BYTE_LEAD low_bits LEVEL_1 - 1 /\
  0 < BikeDefs.LAST_R_QWORD_LEAD low_bits LEVEL_1 < 64 /\
  BikeDefs.R_QWORDS ceil_div 8 LEVEL_1 * 64 =
    R_BITS LEVEL_1 + BikeDefs.LAST_R_QWORD_TRAIL low_bits LEVEL_1 /\
  BikeDefs.LAST_R_QWORD_MASK low_bits LEVEL_1 =
    2 ^ BikeDefs.LAST_R_QWORD_LEAD low_bits LEVEL_1 - 1 /\
  BikeDefs.R_BYTES ceil_div LEVEL_1 <=
    BikeDefs.R_PADDED_BYTES ceil_div LEVEL_1 /\
  BikeDefs.R_QWORDS ceil_div 8 LEVEL_1 <=
    BikeDefs.R_PADDED_QWORDS ceil_div LEVEL_1.
Proof.
  exact (last_byte_and_qword ceil_div low_bits 8 LEVEL_1 ceil_div_meaning).
Defined.

(** X14.  The remaining parameters agree with one another at every level:
    the row weight [D] is odd and below [R_BITS], [THRESHOLD_MIN] is
    [(D + 1) / 2], the error weight [T] is at most [MAX_RAND_INDICES_T] and
    below [N_BITS], and [N_BITS] is twice [R_BITS]. *)
Theorem level_parameters_agree (lvl : level) :
  N.odd (BikeDefs.D lvl) = true /\
  BikeDefs.D lvl < R_BITS lvl /\
  BikeDefs.THRESHOLD_MIN lvl = (BikeDefs.D lvl + 1) / 2 /\
  BikeDefs.T lvl <= BikeDefs.MAX_RAND_INDICES_T lvl /\
  BikeDefs.T lvl < BikeDefs.N_BITS lvl /\
  BikeDefs.N_BITS lvl = 2 * R_BITS lvl.
Proof. destruct lvl; repeat split; discriminate. Qed.

(** ** The accumulators when the loop is left *)

(** X15.  When the loop of [gf2x_mod_inv] is left, [f] holds
    [a^(2^(2^(MAX_I-1)) - 1)] and [t] holds [a^(2^(R-2) - 1)], for every
    ring element [a]. *)
Theorem accumulators_after_loop (lvl : level) (T D : Type) (zero : T)
  (dzero : D) (ctx : gf2x_ctx T D) (V : gf2x_ops T D) (one : T)
  (wf : T -> Prop) (a : T) (st : machine T D) :
  implements ctx V ->
  arith_contract (R_BITS lvl) V one wf ->
  wf a ->
  let p := params lvl in
  let st' := for_loop 1 (MAX_I p) (inv_loop_body p ctx)
               (assign_val ptr_t a
                  (assign_val ptr_f a (enter_frame zero dzero st))) in
  var_f (locals st') =
    gpow (op_mul V) one a (2 ^ (2 ^ (MAX_I p - 1)) - 1) /\
  var_t (locals st') =
    gpow (op_mul V) one a (2 ^ (R_BITS lvl - 2) - 1).
Proof.
  intros Himpl HC Ha p st'. subst st'.
  pose proof (contract_monoid HC) as HM.
  pose proof (monoid_closed HM) as Hcc.
  unfold for_loop. rewrite for_count_fold.
  pose proof (inv_loop_steps T D ctx V wf Himpl Hcc p
                (seq (N.to_nat 1) (N.to_nat (MAX_I p - 1)))
                (assign_val ptr_t a
                   (assign_val ptr_f a (enter_frame zero dzero st)))
                Ha Ha) as Hsteps.
  cbv zeta in Hsteps.
  change (var_f (locals (assign_val ptr_t a
            (assign_val ptr_f a (enter_frame zero dzero st))))) with a
    in Hsteps.
  change (var_t (locals (assign_val ptr_t a
            (assign_val ptr_f a (enter_frame zero dzero st))))) with a
    in Hsteps.
  assert (Hok : forallb (fun i => step_tables_ok (R_BITS lvl) p (N.of_nat i))
                  (seq (N.to_nat 1) (N.to_nat (MAX_I p - 1))) = true).
  { pose proof (level_tables_ok lvl) as H. unfold chain_tables_ok in H.
    fold p in H.
    replace (N.to_nat (MAX_I p - 1)) with (N.to_nat (MAX_I p) - 1)%nat
      by lia.
    exact H. }
  pose proof (invert_steps_pow T D V one wf (R_BITS lvl) HC p a _ Ha Hok
                (1, 1)) as Hpow.
  cbn [fst snd] in Hpow.
  rewrite (gpow_1 _ _ _ _ _ HM a Ha) in Hpow.
  rewrite Hpow in Hsteps. clear Hpow.
  pose proof (level_lengths lvl) as Hlen.
  unfold chain_lengths, for_loop in Hlen. fold p in Hlen.
  apply length_steps_spec in Hlen.
  change (2 ^ 1 - 1) with 1 in Hlen.
  rewrite for_count_fold in Hlen.
  rewrite Hlen in Hsteps. cbn [fst snd] in Hsteps.
  unfold MAX_I_pow in Hsteps. fold p in Hsteps.
  now inversion Hsteps.
Qed.

Lemma accumulators_after_loop_witness :
  let p := params LEVEL_11 in
  let st' := for_loop 1 (MAX_I p)
               (inv_loop_body p (ctx_of_ops (ref_ops 773)))
               (assign_val ptr_t 3
                  (assign_val ptr_f 3 (enter_frame 0 0 sample_state))) in
  var_f (locals st') =
    gpow (op_mul (ref_ops 773)) 1 3 (2 ^ (2 ^ (MAX_I p - 1)) - 1) /\
  var_t (locals st') =
    gpow (op_mul (ref_ops 773)) 1 3 (2 ^ (R_BITS LEVEL_11 - 2) - 1).
Proof.
  exact (accumulators_after_loop LEVEL_11 N N 0 0
           (ctx_of_ops (ref_ops 773)) (ref_ops 773) 1 (ref_wf 773) 3
           sample_state
           (ctx_of_ops_implements N N (ref_ops 773))
           (ref_arith_contract 773 eq_refl eq_refl)
           small_element_wf).
Defined.
